(** * compiler/compiled_method.h: source maps and linker patches

    A shallow embedding of [SrcMapElem], [SrcMap] and [LinkerPatch] from
    [compiler/compiled_method.h], with the properties of the source map
    transforms ([Arrange], [FindByTo], [DeltaFormat]) and of the ordering
    of linker patches.

    Conventions.
    - A fixed-width integer is a [Z]; every operation that can leave the
      range of its C++ type is followed by the conversion to that type
      ([to_uint32], [to_int32], [to_int64]), that is two's complement
      wrap-around.
    - A [std::vector] is a [list]; an iterator is an index of type [nat],
      the end iterator being the length.
    - A pointer to [DexFile] is its address, a [Z]: the header only
      compares such pointers.
    - [std::sort] is a parameter constrained by its contract, since the
      order it leaves between equivalent elements is unspecified. *)

From Stdlib Require Import ZArith List Bool Lia Permutation Sorted.
From Equations Require Import Equations.
Import ListNotations.

Local Open Scope Z_scope.

(** ** Fixed-width integers *)

Definition to_uint32 (z : Z) : Z := z mod 2 ^ 32.
Definition to_int32 (z : Z) : Z := (z + 2 ^ 31) mod 2 ^ 32 - 2 ^ 31.
Definition to_int64 (z : Z) : Z := (z + 2 ^ 63) mod 2 ^ 64 - 2 ^ 63.

Definition is_uint32 (z : Z) : Prop := 0 <= z < 2 ^ 32.
Definition is_int32 (z : Z) : Prop := - 2 ^ 31 <= z < 2 ^ 31.

(** ** SrcMapElem *)

Record SrcMapElem : Type := mkSrcMapElem {
  from_ : Z;   (* uint32_t *)
  to_ : Z      (* int32_t *)
}.

(** The values a [SrcMapElem] can hold: [from_] is a [uint32_t] and [to_]
    an [int32_t]. *)
Definition SrcMapElem_valid (e : SrcMapElem) : Prop :=
  is_uint32 (from_ e) /\ is_int32 (to_ e).

(** [explicit operator int64_t() const]:
    [(static_cast<int64_t>(to_) << 32) | from_]. *)
Definition SrcMapElem_int64 (e : SrcMapElem) : Z :=
  Z.lor (to_int64 (Z.shiftl (to_ e) 32)) (from_ e).

(** [bool operator<(const SrcMapElem& sme) const] *)
Definition SrcMapElem_lt (e sme : SrcMapElem) : bool :=
  SrcMapElem_int64 e <? SrcMapElem_int64 sme.

(** [bool operator==(const SrcMapElem& sme) const] *)
Definition SrcMapElem_eq (e sme : SrcMapElem) : bool :=
  SrcMapElem_int64 e =? SrcMapElem_int64 sme.

(** [explicit operator uint8_t() const] *)
Definition SrcMapElem_uint8 (e : SrcMapElem) : Z :=
  (to_uint32 (from_ e + to_uint32 (to_ e))) mod 2 ^ 8.

(** ** Debug assertions *)

(** The result of a call: it returns, or a debug assertion stops the
    program. *)
Inductive outcome (A : Type) : Type :=
| Done (a : A)
| DcheckFailed.
Arguments Done {A} a.
Arguments DcheckFailed {A}.

Definition bind {A B : Type} (m : outcome A) (k : A -> outcome B) : outcome B :=
  match m with
  | Done a => k a
  | DcheckFailed => DcheckFailed
  end.

Notation "m ;; k" := (bind m (fun _ => k))
  (at level 61, right associativity).

(** Modelled from the spec: the macro [DCHECK] of [base/logging.h], which
    is not part of this header.  The spec calls it a debug-only assertion:
    a violation is a defect, checked in debug builds only.  With
    [kEnableDChecks] (the build's switch) a false condition stops the
    program; without it the condition is not looked at. *)
Definition DCHECK (kEnableDChecks : bool) (condition : bool) : outcome unit :=
  if kEnableDChecks && negb condition then DcheckFailed else Done tt.

(** ** std::vector and the algorithms of the C++ library used on it *)

Definition SrcMapElem_zero : SrcMapElem := mkSrcMapElem 0 0.

(** [v[i]]; every index the header uses is below [size()]. *)
Definition at_ (v : list SrcMapElem) (i : nat) : SrcMapElem :=
  nth i v SrcMapElem_zero.

(** [v[i] = x]. *)
Fixpoint set_at (v : list SrcMapElem) (i : nat) (x : SrcMapElem)
  : list SrcMapElem :=
  match v, i with
  | [], _ => []
  | _ :: r, O => x :: r
  | a :: r, S j => a :: set_at r j x
  end.

(** [v.resize(n)]: the first [n] elements, then value-initialised ones. *)
Definition resize (v : list SrcMapElem) (n : nat) : list SrcMapElem :=
  firstn n v ++ repeat SrcMapElem_zero (n - length v).

(** The requirement of the C++ library on a comparison ([Compare]): a
    strict weak ordering. *)
Definition strict_weak_order {A : Type} (comp : A -> A -> bool) : Prop :=
  (forall a, comp a a = false) /\
  (forall a b c, comp a b = true -> comp b c = true -> comp a c = true) /\
  (forall a b c, comp a b = false -> comp b c = false -> comp a c = false).

(** The contract of [std::sort(first, last, comp)]: the range is permuted
    and, for a strict weak ordering, no element is below an earlier one.
    The order between equivalent elements is left open. *)
Definition std_sort_contract
    (sort : forall A : Type, (A -> A -> bool) -> list A -> list A) : Prop :=
  forall (A : Type) (comp : A -> A -> bool) (l : list A),
    Permutation l (sort A comp l) /\
    (strict_weak_order comp ->
     StronglySorted (fun a b => comp b a = false) (sort A comp l)).

(** One [std::sort]: insertion sort, which is stable. *)
Fixpoint insert_sorted {A : Type} (comp : A -> A -> bool) (x : A) (l : list A)
  : list A :=
  match l with
  | [] => [x]
  | y :: r => if comp x y then x :: y :: r else y :: insert_sorted comp x r
  end.

Fixpoint insertion_sort (A : Type) (comp : A -> A -> bool) (l : list A)
  : list A :=
  match l with
  | [] => []
  | x :: r => insert_sorted comp x (insertion_sort A comp r)
  end.

(** [std::unique(first, last)] with [==] given by [eqb], after the first
    element: an element is kept when it is not equal to the last kept one,
    [dest]. *)
Fixpoint unique_after {A : Type} (eqb : A -> A -> bool) (dest : A) (l : list A)
  : list A :=
  match l with
  | [] => []
  | x :: r => if eqb dest x then unique_after eqb dest r
              else x :: unique_after eqb x r
  end.

(** The elements [std::unique] keeps: the first of every run of equal
    neighbours. *)
Definition unique_kept {A : Type} (eqb : A -> A -> bool) (l : list A) : list A :=
  match l with
  | [] => []
  | x :: r => x :: unique_after eqb x r
  end.

(** [std::unique(first, last)]: the kept elements are moved to the front,
    what lies behind them is left in place; the result is the range and
    the index of the new logical end. *)
Definition std_unique {A : Type} (eqb : A -> A -> bool) (l : list A)
  : list A * nat :=
  let kept := unique_kept eqb l in
  (kept ++ skipn (length kept) l, length kept).

(** [std::lower_bound(first, last, value)] with [<] given by [comp]: the
    halving loop on the range [[first, first + len)]. *)
Equations? lower_bound_loop {A : Type} (comp : A -> A -> bool) (l : list A)
    (value : A) (first len : nat) : nat by wf len lt :=
  lower_bound_loop comp l value first O := first;
  lower_bound_loop comp l value first (S n) :=
    let half := Nat.div2 (S n) in
    let middle := (first + half)%nat in
    match nth_error l middle with
    | Some x =>
        if comp x value
        then lower_bound_loop comp l value (S middle) (S n - half - 1)
        else lower_bound_loop comp l value first half
    | None => first
    end.
Proof.
  all: subst half; destruct n as [ | n']; simpl; try lia.
  - destruct (Nat.div2 n'); lia.
  - pose proof (Nat.div2_decr n' n'). lia.
Qed.

Definition std_lower_bound {A : Type} (comp : A -> A -> bool) (l : list A)
    (value : A) : nat :=
  lower_bound_loop comp l value 0 (length l).

(** ** SrcMap *)

(** [class SrcMap : public std::vector<SrcMapElem, Allocator>] *)
Definition SrcMap : Type := list SrcMapElem.

Definition empty (this : SrcMap) : bool :=
  match this with
  | [] => true
  | _ :: _ => false
  end.

Definition size (this : SrcMap) : nat := length this.

(** [a -= b] on both fields, as in [DeltaFormat]: [from_] is unsigned and
    wraps; [to_] is signed and is taken to wrap as well. *)
Definition SrcMapElem_sub (a b : SrcMapElem) : SrcMapElem :=
  {| from_ := to_uint32 (from_ a - from_ b);
     to_ := to_int32 (to_ a - to_ b) |}.

(** [FindByTo]: [std::lower_bound(begin(), end(), SrcMapElem({0, to}))]. *)
Definition FindByTo (this : SrcMap) (to : Z) : nat :=
  std_lower_bound SrcMapElem_lt this (mkSrcMapElem 0 to).

(** The loop of [DeltaFormat] that looks for the new last entry:
    [for (; i > 0; i--) if (this[i].from_ < highest_pc) break;]
    started at [i] (writing [this[i]] for the element at [i] of the
    vector); the result is the final [i]. *)
Fixpoint highest_kept (this : SrcMap) (highest_pc : Z) (i : nat) : nat :=
  match i with
  | O => O
  | S j => if from_ (at_ this i) <? highest_pc then i
           else highest_kept this highest_pc j
  end.

(** The loop of [DeltaFormat] that turns entries into differences:
    [for (i = size(); --i >= 1; ) { this[i] -= this[i-1]; }]
    on both fields; the argument [i] is the value [--i] has just
    yielded, so the body runs at [i] unless it is 0. *)
Fixpoint delta_loop (this : SrcMap) (i : nat) : SrcMap :=
  match i with
  | O => this
  | S j =>
      delta_loop (set_at this i (SrcMapElem_sub (at_ this i) (at_ this j))) j
  end.

(** The block of [DeltaFormat] under [// get rid of the highest values]:
    [size_t i = size() - 1; for ...; this->resize(i + 1);]. *)
Definition drop_highest (this : SrcMap) (highest_pc : Z) : SrcMap :=
  let i := (size this - 1)%nat in
  let i := highest_kept this highest_pc i in
  resize this (i + 1).

Section SrcMapOperations.

(** [std::sort], see [std_sort_contract]. *)
Variable std_sort : forall A : Type, (A -> A -> bool) -> list A -> list A.

(** The build's switch of debug assertions, see [DCHECK]. *)
Variable kEnableDChecks : bool.

Definition SortByFrom (this : SrcMap) : SrcMap :=
  std_sort SrcMapElem
    (fun lhs rhs => from_ lhs <? from_ rhs) this.

(** [shrink_to_fit()] changes the capacity only and has no counterpart
    here. *)
Definition Arrange (this : SrcMap) : SrcMap :=
  if negb (empty this) then
    let this := std_sort SrcMapElem SrcMapElem_lt this in
    let '(this, new_end) := std_unique SrcMapElem_eq this in
    resize this (new_end - 0)
  else this.

Definition DeltaFormat (start : SrcMapElem) (highest_pc : Z) (this : SrcMap)
  : outcome SrcMap :=
  if negb (empty this) then
    let this := SortByFrom this in
    let this := drop_highest this highest_pc in
    let this := delta_loop this (size this - 1) in
    DCHECK kEnableDChecks (from_ (at_ this 0) >=? from_ start) ;;
    Done (set_at this 0 (SrcMapElem_sub (at_ this 0) start))
  else Done this.

End SrcMapOperations.

(** ** LinkerPatch *)

Inductive LinkerPatchType : Type :=
| kLinkerPatchMethod
| kLinkerPatchCall
| kLinkerPatchCallRelative
| kLinkerPatchType.

(** The value of an enumerator, which [==], [!=] and [<] compare. *)
Definition LinkerPatchType_value (t : LinkerPatchType) : Z :=
  match t with
  | kLinkerPatchMethod => 0
  | kLinkerPatchCall => 1
  | kLinkerPatchCallRelative => 2
  | kLinkerPatchType => 3
  end.

(** The private constructor takes the fields in this order. *)
Record LinkerPatch : Type := mkLinkerPatch {
  literal_offset_ : Z;             (* size_t *)
  patch_type_ : LinkerPatchType;
  target_idx_ : Z;                 (* uint32_t *)
  target_dex_file_ : Z             (* const DexFile* *)
}.

(** Modelled from the spec: the type [MethodReference] of
    [method_reference.h], which is not part of this header.  The spec
    speaks of the method reference a patch resolves to: the container and
    the method index, the two arguments [TargetMethod] builds it from. *)
Record MethodReference : Type := mkMethodReference {
  dex_file : Z;                    (* const DexFile* *)
  dex_method_index : Z             (* uint32_t *)
}.

Definition MethodPatch (literal_offset target_dex_file target_method_idx : Z)
  : LinkerPatch :=
  mkLinkerPatch literal_offset kLinkerPatchMethod
                target_method_idx target_dex_file.

Definition CodePatch (literal_offset target_dex_file target_method_idx : Z)
  : LinkerPatch :=
  mkLinkerPatch literal_offset kLinkerPatchCall
                target_method_idx target_dex_file.

Definition RelativeCodePatch
    (literal_offset target_dex_file target_method_idx : Z) : LinkerPatch :=
  mkLinkerPatch literal_offset kLinkerPatchCallRelative
                target_method_idx target_dex_file.

Definition TypePatch (literal_offset target_dex_file target_type_idx : Z)
  : LinkerPatch :=
  mkLinkerPatch literal_offset kLinkerPatchType target_type_idx target_dex_file.

Definition LiteralOffset (p : LinkerPatch) : Z := literal_offset_ p.

Definition Type_ (p : LinkerPatch) : LinkerPatchType := patch_type_ p.

Definition LinkerPatchType_eqb (s t : LinkerPatchType) : bool :=
  LinkerPatchType_value s =? LinkerPatchType_value t.

Section LinkerPatchAccessors.

Variable kEnableDChecks : bool.

Definition TargetMethod (p : LinkerPatch) : outcome MethodReference :=
  DCHECK kEnableDChecks
    (LinkerPatchType_eqb (patch_type_ p) kLinkerPatchMethod ||
     LinkerPatchType_eqb (patch_type_ p) kLinkerPatchCall ||
     LinkerPatchType_eqb (patch_type_ p) kLinkerPatchCallRelative) ;;
  Done (mkMethodReference (target_dex_file_ p) (target_idx_ p)).

Definition TargetTypeDexFile (p : LinkerPatch) : outcome Z :=
  DCHECK kEnableDChecks
    (LinkerPatchType_eqb (patch_type_ p) kLinkerPatchType) ;;
  Done (target_dex_file_ p).

Definition TargetTypeIndex (p : LinkerPatch) : outcome Z :=
  DCHECK kEnableDChecks
    (LinkerPatchType_eqb (patch_type_ p) kLinkerPatchType) ;;
  Done (target_idx_ p).

End LinkerPatchAccessors.

(** [operator==(const LinkerPatch&, const LinkerPatch&)] *)
Definition LinkerPatch_eq (lhs rhs : LinkerPatch) : bool :=
  (literal_offset_ lhs =? literal_offset_ rhs) &&
  LinkerPatchType_eqb (patch_type_ lhs) (patch_type_ rhs) &&
  (target_idx_ lhs =? target_idx_ rhs) &&
  (target_dex_file_ lhs =? target_dex_file_ rhs).

(** [operator<(const LinkerPatch&, const LinkerPatch&)] *)
Definition LinkerPatch_lt (lhs rhs : LinkerPatch) : bool :=
  if negb (literal_offset_ lhs =? literal_offset_ rhs)
  then literal_offset_ lhs <? literal_offset_ rhs
  else if negb (LinkerPatchType_eqb (patch_type_ lhs) (patch_type_ rhs))
  then LinkerPatchType_value (patch_type_ lhs)
       <? LinkerPatchType_value (patch_type_ rhs)
  else if negb (target_idx_ lhs =? target_idx_ rhs)
  then target_idx_ lhs <? target_idx_ rhs
  else target_dex_file_ lhs <? target_dex_file_ rhs.

(** ** Notions the properties are stated with *)

(** A canonical map: strictly increasing for the composite key. *)
Definition canonical (m : SrcMap) : Prop :=
  StronglySorted (fun a b => SrcMapElem_int64 a < SrcMapElem_int64 b) m.

(** The entries [DeltaFormat] is meant to keep: those below [highest_pc]. *)
Definition below (highest_pc : Z) (e : SrcMapElem) : bool :=
  from_ e <? highest_pc.

Definition count_below (highest_pc : Z) (m : SrcMap) : nat :=
  length (filter (below highest_pc) m).

(** [a += d] on both fields, with the arithmetic of the fields' types. *)
Definition SrcMapElem_add (a d : SrcMapElem) : SrcMapElem :=
  {| from_ := to_uint32 (from_ a + from_ d);
     to_ := to_int32 (to_ a + to_ d) |}.

(** Reading a delta-encoded map back: the running sums of the entries,
    started from [prev]. *)
Fixpoint accumulate (prev : SrcMapElem) (deltas : SrcMap) : SrcMap :=
  match deltas with
  | [] => []
  | d :: r => let cur := SrcMapElem_add prev d in cur :: accumulate cur r
  end.

(** The differences of the entries of a map, each from the entry before
    it and the first from [prev]. *)
Fixpoint differences (prev : SrcMapElem) (m : SrcMap) : SrcMap :=
  match m with
  | [] => []
  | e :: r => SrcMapElem_sub e prev :: differences e r
  end.

(** The first index whose entry has a composite key of at least [k], the
    size when there is none: a scan from the front. *)
Fixpoint first_not_below (k : Z) (m : SrcMap) : nat :=
  match m with
  | [] => O
  | e :: r => if k <=? SrcMapElem_int64 e then O else S (first_not_below k r)
  end.

(** The lexicographic order on
    [(literal_offset_, patch_type_, target_idx_, target_dex_file_)]. *)
Definition LinkerPatch_lex (a b : LinkerPatch) : Prop :=
  literal_offset_ a < literal_offset_ b \/
  (literal_offset_ a = literal_offset_ b /\
   (LinkerPatchType_value (patch_type_ a) < LinkerPatchType_value (patch_type_ b) \/
    (patch_type_ a = patch_type_ b /\
     (target_idx_ a < target_idx_ b \/
      (target_idx_ a = target_idx_ b /\
       target_dex_file_ a < target_dex_file_ b))))).

(** The differences of consecutive integers, the first from [prev]: the
    gaps between the [from_] values of a map, taken in the integers. *)
Fixpoint gaps (prev : Z) (l : list Z) : list Z :=
  match l with
  | [] => []
  | x :: r => (x - prev) :: gaps x r
  end.

(** * Properties *)

(** ** The composite key *)

Lemma to_int64_id z : - 2 ^ 63 <= z < 2 ^ 63 -> to_int64 z = z.
Proof.
  intros H. unfold to_int64.
  rewrite Z.mod_small by lia. lia.
Qed.

Lemma to_uint32_id z : is_uint32 z -> to_uint32 z = z.
Proof.
  unfold is_uint32, to_uint32. intros H. now apply Z.mod_small.
Qed.

Lemma land_shiftl_small hi lo :
  0 <= lo < 2 ^ 32 -> Z.land (Z.shiftl hi 32) lo = 0.
Proof.
  intros Hlo. apply Z.bits_inj'. intros n Hn.
  rewrite Z.land_spec, Z.bits_0.
  destruct (Z.ltb_spec n 32) as [Hlt | Hge].
  - rewrite Z.shiftl_spec_low by assumption. reflexivity.
  - destruct (Z.eq_dec lo 0) as [-> | Hnz].
    + rewrite Z.bits_0. apply andb_false_r.
    + rewrite (Z.bits_above_log2 lo n); [apply andb_false_r | lia | ].
      apply Z.lt_le_trans with 32; [ | assumption].
      apply Z.log2_lt_pow2; lia.
Qed.

(** On the values the fields can hold the key is [to_ * 2^32 + from_]:
    the shift does not leave [int64_t] and the two operands of [|] share
    no bit. *)
Lemma SrcMapElem_int64_valid e :
  SrcMapElem_valid e -> SrcMapElem_int64 e = to_ e * 2 ^ 32 + from_ e.
Proof.
  intros [Hf Ht]. unfold SrcMapElem_int64, is_uint32, is_int32 in *.
  rewrite Z.shiftl_mul_pow2 by lia.
  rewrite to_int64_id by lia.
  rewrite <- (Z.shiftl_mul_pow2 _ 32) by lia.
  rewrite <- Z.add_lor_land, land_shiftl_small by assumption.
  rewrite Z.shiftl_mul_pow2 by lia. lia.
Qed.

(** C10. The composite key is injective on the values a [SrcMapElem] can
    hold and decides both operators: [a == b] exactly when both fields are
    equal, and [a < b] exactly when [(to_, from_)] of [a] is
    lexicographically below that of [b], [to_] compared as a signed and
    [from_] as an unsigned 32-bit value; so an entry with a negative [to_]
    is below every entry with a non-negative one. *)
Theorem SrcMapElem_key_decides_operators (a b : SrcMapElem)
    (Ha : SrcMapElem_valid a) (Hb : SrcMapElem_valid b) :
  (SrcMapElem_int64 a = SrcMapElem_int64 b -> a = b) /\
  (SrcMapElem_eq a b = true <-> from_ a = from_ b /\ to_ a = to_ b) /\
  (SrcMapElem_lt a b = true <->
     to_ a < to_ b \/ (to_ a = to_ b /\ from_ a < from_ b)) /\
  (to_ a < 0 <= to_ b -> SrcMapElem_lt a b = true).
Proof.
  unfold SrcMapElem_eq, SrcMapElem_lt.
  rewrite Z.eqb_eq, Z.ltb_lt.
  rewrite (SrcMapElem_int64_valid a Ha), (SrcMapElem_int64_valid b Hb).
  destruct Ha as [Hfa Hta], Hb as [Hfb Htb].
  destruct a as [fa ta], b as [fb tb]; simpl in *.
  unfold is_uint32, is_int32 in *.
  repeat split; intros; try lia.
  f_equal; lia.
Qed.

(** ** Orderings and sorting *)

(** Comparing a numeric key with [<] is a strict weak ordering. *)
Lemma key_ltb_strict_weak_order {A : Type} (key : A -> Z) :
  strict_weak_order (fun a b => key a <? key b).
Proof.
  repeat split; intros *.
  - apply Z.ltb_irrefl.
  - rewrite !Z.ltb_lt. lia.
  - rewrite !Z.ltb_ge. lia.
Qed.

Lemma StronglySorted_weaken {A : Type} (R R' : A -> A -> Prop) (l : list A) :
  (forall a b, R a b -> R' a b) -> StronglySorted R l -> StronglySorted R' l.
Proof.
  intros HR; induction 1 as [ | a l Hl IH Ha]; constructor; auto.
  revert Ha. apply Forall_impl. auto.
Qed.

(** What [std::sort] yields for a comparison of numeric keys. *)
Lemma std_sort_by_key sort (A : Type) (key : A -> Z) (l : list A) :
  std_sort_contract sort ->
  let l' := sort A (fun a b => key a <? key b) l in
  Permutation l l' /\ StronglySorted (fun a b => key a <= key b) l'.
Proof.
  intros Hsort l'.
  destruct (Hsort A (fun a b => key a <? key b) l) as [Hperm Hsorted].
  split; [exact Hperm | ].
  apply StronglySorted_weaken with (2 := Hsorted (key_ltb_strict_weak_order key)).
  intros a b. now rewrite Z.ltb_ge.
Qed.

(** A list with strictly increasing keys has one sorted arrangement. *)
Lemma sorted_perm_of_strict {A : Type} (key : A -> Z) (l l' : list A) :
  StronglySorted (fun a b => key a < key b) l ->
  Permutation l l' ->
  StronglySorted (fun a b => key a <= key b) l' ->
  l' = l.
Proof.
  intros Hl; revert l'.
  induction Hl as [ | a l Hl IH Ha]; intros l' Hperm Hl'.
  - now apply Permutation_nil.
  - destruct l' as [ | b l'].
    + apply Permutation_sym, Permutation_nil in Hperm. discriminate.
    + inversion Hl' as [ | ? ? Hl'' Hb]; subst.
      assert (b = a) as ->.
      { assert (In b (a :: l)) as [-> | Hin]
          by (eapply Permutation_in; [apply Permutation_sym; eassumption | now left]);
          [reflexivity | ].
        assert (In a (b :: l')) as [-> | Hin']
          by (eapply Permutation_in; [eassumption | now left]);
          [reflexivity | ].
        rewrite Forall_forall in Ha, Hb.
        specialize (Ha _ Hin). specialize (Hb _ Hin'). lia. }
      f_equal. apply IH; [ | assumption].
      eapply Permutation_cons_inv; eassumption.
Qed.

Lemma insert_sorted_perm {A : Type} (comp : A -> A -> bool) x l :
  Permutation (x :: l) (insert_sorted comp x l).
Proof.
  induction l as [ | y r IH]; simpl; [reflexivity | ].
  destruct (comp x y); [reflexivity | ].
  rewrite perm_swap. now constructor.
Qed.

Lemma insert_sorted_sorted {A : Type} (comp : A -> A -> bool) x l :
  strict_weak_order comp ->
  StronglySorted (fun a b => comp b a = false) l ->
  StronglySorted (fun a b => comp b a = false) (insert_sorted comp x l).
Proof.
  intros (Hirr & Htrans & Hneg).
  induction 1 as [ | y r Hr IH Hy]; simpl.
  - repeat constructor.
  - destruct (comp x y) eqn:Hxy.
    + assert (Hyx : comp y x = false).
      { destruct (comp y x) eqn:E; [ | reflexivity].
        rewrite <- (Hirr x). symmetry. eauto. }
      constructor; [now constructor | ].
      constructor; [assumption | ].
      revert Hy. apply Forall_impl. intros z Hz. eauto.
    + constructor; [assumption | ].
      apply (Permutation_Forall (insert_sorted_perm comp x r)).
      now constructor.
Qed.

(** Insertion sort is a [std::sort]. *)
Lemma insertion_sort_contract : std_sort_contract insertion_sort.
Proof.
  intros A comp l; split.
  - induction l as [ | x r IH]; simpl; [constructor | ].
    rewrite <- insert_sorted_perm. now constructor.
  - intros Hcomp. induction l as [ | x r IH]; simpl; [constructor | ].
    now apply insert_sorted_sorted.
Qed.

(** ** Arrange *)

Lemma resize_std_unique (kept rest : list SrcMapElem) :
  resize (kept ++ rest) (length kept - 0) = kept.
Proof.
  unfold resize. rewrite Nat.sub_0_r, length_app.
  rewrite firstn_app, firstn_all, Nat.sub_diag, firstn_O.
  replace (length kept - (length kept + length rest))%nat with O by lia.
  simpl. now rewrite !app_nil_r.
Qed.

(** [Arrange] without the vector operations: sort, then keep the first
    entry of every run of equal keys. *)
Lemma Arrange_unfold sort (this : SrcMap) :
  std_sort_contract sort ->
  Arrange sort this = unique_kept SrcMapElem_eq (sort _ SrcMapElem_lt this).
Proof.
  intros Hsort. unfold Arrange.
  destruct this as [ | e r]; simpl negb; cbv iota.
  - destruct (Hsort _ SrcMapElem_lt []) as [Hperm _].
    apply Permutation_nil in Hperm. now rewrite Hperm.
  - unfold std_unique. apply resize_std_unique.
Qed.

Section UniqueOnSorted.

Let key := SrcMapElem_int64.
Let sorted := StronglySorted (fun a b => key a <= key b).

Lemma unique_after_sorted dest l :
  sorted (dest :: l) ->
  canonical (dest :: unique_after SrcMapElem_eq dest l) /\
  (forall e, In e (unique_after SrcMapElem_eq dest l) -> In e l) /\
  (forall k, In k (map key l) ->
             k = key dest \/
             In k (map key (unique_after SrcMapElem_eq dest l))).
Proof.
  revert dest; induction l as [ | x r IH]; intros dest Hs; simpl.
  - repeat split; try tauto. repeat constructor.
  - inversion Hs as [ | ? ? Hxr Hdest]; subst.
    inversion Hdest as [ | ? ? Hdx Hdr]; subst.
    inversion Hxr as [ | ? ? Hr Hx]; subst.
    unfold SrcMapElem_eq. fold key.
    destruct (Z.eqb_spec (key dest) (key x)) as [Heq | Hne].
    + destruct (IH dest) as (Hc & Hin & Hk); [now constructor | ].
      repeat split; [assumption | auto | ].
      intros k [<- | Hk']; [now left | auto].
    + destruct (IH x Hxr) as (Hc & Hin & Hk).
      repeat split.
      * inversion Hc as [ | ? ? Hc' Hcx]; subst.
        constructor; [assumption | ].
        constructor; [fold key; lia | ].
        revert Hcx. apply Forall_impl. fold key. intros; lia.
      * intros e [<- | He]; [now left | right; auto].
      * intros k [<- | Hk']; [right; now left | ].
        destruct (Hk k Hk') as [-> | ?]; right; [now left | now right].
Qed.

Lemma unique_kept_sorted l :
  sorted l ->
  canonical (unique_kept SrcMapElem_eq l) /\
  (forall e, In e (unique_kept SrcMapElem_eq l) -> In e l) /\
  (forall k, In k (map key l) ->
             In k (map key (unique_kept SrcMapElem_eq l))).
Proof.
  destruct l as [ | x r]; simpl; intros Hs.
  - repeat split; try tauto. constructor.
  - destruct (unique_after_sorted x r Hs) as (Hc & Hin & Hk).
    repeat split; [assumption | | ].
    + intros e [<- | He]; [now left | right; auto].
    + intros k [<- | Hk']; [now left | ].
      destruct (Hk k Hk') as [-> | ?]; [now left | now right].
Qed.

(** [std::unique] finds nothing to remove in a canonical map. *)
Lemma unique_kept_canonical l :
  canonical l -> unique_kept SrcMapElem_eq l = l.
Proof.
  destruct l as [ | x r]; simpl; [reflexivity | ].
  intros Hc. f_equal. revert x Hc.
  induction r as [ | y r IH]; intros x Hc; simpl; [reflexivity | ].
  inversion Hc as [ | ? ? Hyr Hx]; subst.
  inversion Hx as [ | ? ? Hxy _]; subst.
  unfold SrcMapElem_eq.
  destruct (Z.eqb_spec (SrcMapElem_int64 x) (SrcMapElem_int64 y)); [lia | ].
  f_equal. now apply IH.
Qed.

Lemma canonical_NoDup_keys l : canonical l -> NoDup (map key l).
Proof.
  induction 1 as [ | a l Hl IH Ha]; simpl; constructor; [ | assumption].
  rewrite in_map_iff. intros (b & Hk & Hb).
  rewrite Forall_forall in Ha. specialize (Ha b Hb). fold key in Ha. lia.
Qed.

End UniqueOnSorted.

Section ArrangeProperties.

Variable std_sort : forall A : Type, (A -> A -> bool) -> list A -> list A.
Hypothesis std_sort_ok : std_sort_contract std_sort.

(** C2. After [Arrange] the entries are strictly increasing for the
    composite key, whatever the entries were before; so no two entries
    with equal keys survive, and every key of the input is the key of
    exactly one entry of the output. The entries of the output are
    entries of the input. *)
Theorem Arrange_canonical (this : SrcMap) :
  canonical (Arrange std_sort this) /\
  NoDup (map SrcMapElem_int64 (Arrange std_sort this)) /\
  (forall k, In k (map SrcMapElem_int64 this) <->
             In k (map SrcMapElem_int64 (Arrange std_sort this))) /\
  (forall k, In k (map SrcMapElem_int64 this) ->
             count_occ Z.eq_dec
               (map SrcMapElem_int64 (Arrange std_sort this)) k = 1%nat) /\
  (forall e, In e (Arrange std_sort this) -> In e this).
Proof.
  rewrite (Arrange_unfold _ _ std_sort_ok).
  destruct (std_sort_by_key std_sort _ SrcMapElem_int64 this std_sort_ok)
    as [Hperm Hsorted].
  change (fun a b => SrcMapElem_int64 a <? SrcMapElem_int64 b)
    with SrcMapElem_lt in *.
  destruct (unique_kept_sorted _ Hsorted) as (Hc & Hin & Hk).
  pose proof (canonical_NoDup_keys _ Hc) as Hnd.
  assert (Hiff : forall k, In k (map SrcMapElem_int64 this) <->
    In k (map SrcMapElem_int64
            (unique_kept SrcMapElem_eq (std_sort _ SrcMapElem_lt this)))).
  { intros k; split; intros Hk'.
    - apply Hk. eapply Permutation_in; [ | eassumption].
      now apply Permutation_map.
    - apply in_map_iff in Hk' as (e & <- & He).
      apply in_map. eapply Permutation_in;
        [apply Permutation_sym; eassumption | auto]. }
  repeat split; try assumption; try apply Hiff.
  - intros k Hk'. apply Hiff in Hk'.
    apply NoDup_count_occ' with (decA := Z.eq_dec) in Hk'; assumption.
  - intros e He. eapply Permutation_in;
      [apply Permutation_sym; eassumption | auto].
Qed.

(** [Arrange] leaves a canonical map as it is. *)
Lemma Arrange_of_canonical (this : SrcMap) :
  canonical this -> Arrange std_sort this = this.
Proof.
  intros Hc. rewrite (Arrange_unfold _ _ std_sort_ok).
  destruct (std_sort_by_key std_sort _ SrcMapElem_int64 this std_sort_ok)
    as [Hperm Hsorted].
  change (fun a b => SrcMapElem_int64 a <? SrcMapElem_int64 b)
    with SrcMapElem_lt in *.
  rewrite (sorted_perm_of_strict SrcMapElem_int64 _ _ Hc Hperm Hsorted).
  now apply unique_kept_canonical.
Qed.

Lemma Arrange_is_canonical (this : SrcMap) :
  canonical (Arrange std_sort this).
Proof.
  rewrite (Arrange_unfold _ _ std_sort_ok).
  destruct (std_sort_by_key std_sort _ SrcMapElem_int64 this std_sort_ok)
    as [_ Hsorted].
  now apply unique_kept_sorted.
Qed.

(** C6. [Arrange] is idempotent: a second [Arrange] yields the sequence
    the first one yielded, and a canonical map is left unchanged. *)
Theorem Arrange_idempotent (this : SrcMap) :
  Arrange std_sort (Arrange std_sort this) = Arrange std_sort this /\
  (canonical this -> Arrange std_sort this = this).
Proof.
  split.
  - apply Arrange_of_canonical, Arrange_is_canonical.
  - apply Arrange_of_canonical.
Qed.

End ArrangeProperties.

(** ** FindByTo *)

Section LowerBound.

Context {A : Type} (comp : A -> A -> bool) (l : list A) (value : A).

(** The range is partitioned for [comp _ value]: the elements below
    [value] come first. *)
Hypothesis partitioned :
  forall i j x y, (i <= j)%nat ->
    nth_error l i = Some x -> nth_error l j = Some y ->
    comp y value = true -> comp x value = true.

(** The loop keeps its invariant: the elements before [first] are below
    [value], those from [first + len] on are not. *)
Lemma lower_bound_loop_spec (len first : nat) :
  (first + len <= length l)%nat ->
  (forall i x, (i < first)%nat -> nth_error l i = Some x ->
               comp x value = true) ->
  (forall i x, (first + len <= i)%nat -> nth_error l i = Some x ->
               comp x value = false) ->
  let r := lower_bound_loop comp l value first len in
  (r <= length l)%nat /\
  (forall i x, (i < r)%nat -> nth_error l i = Some x ->
               comp x value = true) /\
  (forall i x, (r <= i)%nat -> nth_error l i = Some x ->
               comp x value = false).
Proof.
  revert first.
  induction len as [len IH] using lt_wf_ind; intros first Hlen Hlo Hhi.
  destruct len as [ | n]; simp lower_bound_loop; cbv zeta.
  - rewrite Nat.add_0_r in *. repeat split; [lia | assumption ..].
  - assert (Hhalf : (Nat.div2 (S n) < S n)%nat) by (apply Nat.lt_div2; lia).
    set (half := Nat.div2 (S n)) in *.
    destruct (nth_error l (first + half)) as [x | ] eqn:Hx.
    2:{ apply nth_error_None in Hx. lia. }
    destruct (comp x value) eqn:Hcx.
    + apply IH; [lia | lia | | ].
      * intros i y Hi Hy.
        apply (partitioned i (first + half)%nat y x); [lia | assumption ..].
      * intros i y Hi. apply Hhi. lia.
    + apply IH; [lia | lia | assumption | ].
      intros i y Hi Hy.
      destruct (comp y value) eqn:Hcy; [ | reflexivity].
      rewrite <- Hcx. symmetry.
      apply (partitioned (first + half)%nat i x y); [lia | assumption ..].
Qed.

Lemma std_lower_bound_spec :
  let r := std_lower_bound comp l value in
  (r <= length l)%nat /\
  (forall i x, (i < r)%nat -> nth_error l i = Some x ->
               comp x value = true) /\
  (forall i x, (r <= i)%nat -> nth_error l i = Some x ->
               comp x value = false).
Proof.
  apply lower_bound_loop_spec; [lia | intros; lia | ].
  intros i x Hi Hx. simpl in Hi.
  assert (nth_error l i <> None) as Hn by congruence.
  apply nth_error_Some in Hn. lia.
Qed.

End LowerBound.

Lemma StronglySorted_nth_error {A : Type} (R : A -> A -> Prop) (l : list A) :
  StronglySorted R l ->
  forall i j x y, (i < j)%nat ->
    nth_error l i = Some x -> nth_error l j = Some y -> R x y.
Proof.
  induction 1 as [ | a l Hl IH Ha]; intros i j x y Hij Hx Hy.
  - destruct i; discriminate.
  - destruct j as [ | j]; [lia | ]. simpl in Hy.
    destruct i as [ | i]; simpl in Hx.
    + injection Hx as <-. rewrite Forall_forall in Ha.
      apply Ha. eapply nth_error_In; eassumption.
    + apply (IH i j); [lia | assumption ..].
Qed.

(** The scan from the front, by indices. *)
Lemma first_not_below_spec (k : Z) (m : SrcMap) (r : nat) :
  (r <= length m)%nat ->
  (forall i x, (i < r)%nat -> nth_error m i = Some x ->
               SrcMapElem_int64 x < k) ->
  (forall x, nth_error m r = Some x -> k <= SrcMapElem_int64 x) ->
  first_not_below k m = r.
Proof.
  revert r; induction m as [ | e m IH]; intros r Hr Hlo Hhi; simpl in *.
  - lia.
  - destruct r as [ | r].
    + specialize (Hhi e eq_refl).
      destruct (Z.leb_spec k (SrcMapElem_int64 e)); [reflexivity | lia].
    + pose proof (Hlo O e ltac:(lia) eq_refl).
      destruct (Z.leb_spec k (SrcMapElem_int64 e)); [lia | ].
      f_equal. apply IH; [lia | | assumption].
      intros i x Hi. apply (Hlo (S i)). lia.
Qed.

(** C4. On a canonical map [FindByTo(to)] is the index of the first entry
    whose composite key is at least that of [{from_ = 0, to_ = to}], and
    the size of the map (the end iterator) when there is no such entry:
    every entry before the result has a smaller key, every entry from the
    result on has a key at least as large, and a scan from the front
    stops at the same index. *)
Theorem FindByTo_first_not_below (this : SrcMap) (to : Z)
    (Hcanonical : canonical this) :
  let k := SrcMapElem_int64 (mkSrcMapElem 0 to) in
  let r := FindByTo this to in
  (r <= size this)%nat /\
  (forall i, (i < r)%nat -> SrcMapElem_int64 (at_ this i) < k) /\
  (forall i, (r <= i < size this)%nat -> k <= SrcMapElem_int64 (at_ this i)) /\
  (r = size this <-> Forall (fun e => SrcMapElem_int64 e < k) this) /\
  r = first_not_below k this.
Proof.
  intros k r.
  destruct (std_lower_bound_spec SrcMapElem_lt this (mkSrcMapElem 0 to))
    as (Hr & Hlo & Hhi).
  { intros i j x y Hij Hx Hy. unfold SrcMapElem_lt. rewrite !Z.ltb_lt.
    destruct (Nat.eq_dec i j) as [-> | Hne]; [congruence | ].
    pose proof (StronglySorted_nth_error _ _ Hcanonical i j x y
                  ltac:(lia) Hx Hy).
    simpl in *. lia. }
  fold (FindByTo this to) in Hr, Hlo, Hhi. fold r in Hr, Hlo, Hhi.
  unfold SrcMapElem_lt in Hlo, Hhi. fold k in Hlo, Hhi.
  assert (Hlo' : forall i x, (i < r)%nat -> nth_error this i = Some x ->
                             SrcMapElem_int64 x < k).
  { intros i x Hi Hx. apply Z.ltb_lt. eauto. }
  assert (Hhi' : forall i x, (r <= i)%nat -> nth_error this i = Some x ->
                             k <= SrcMapElem_int64 x).
  { intros i x Hi Hx. apply Z.ltb_ge. eauto. }
  assert (Hat : forall i, (i < size this)%nat ->
                          nth_error this i = Some (at_ this i)).
  { intros i Hi. unfold at_. now apply nth_error_nth'. }
  unfold size in *.
  repeat split.
  - exact Hr.
  - intros i Hi. apply (Hlo' i); [assumption | apply Hat; lia].
  - intros i Hi. apply (Hhi' i); [lia | apply Hat; lia].
  - intros Heq. apply Forall_forall. intros e He.
    apply In_nth_error in He as [i Hi].
    apply (Hlo' i); [ | assumption].
    assert (nth_error this i <> None) as Hn by congruence.
    apply nth_error_Some in Hn. lia.
  - intros Hall. destruct (Nat.eq_dec r (length this)) as [ | Hne];
      [assumption | exfalso].
    assert (Hlt : (r < length this)%nat) by lia.
    pose proof (Hhi' r _ (Nat.le_refl r) (Hat r Hlt)) as Hge.
    rewrite Forall_forall in Hall.
    specialize (Hall (at_ this r) (nth_error_In _ _ (Hat r Hlt))).
    simpl in Hall. lia.
  - symmetry. apply first_not_below_spec; [assumption | assumption | ].
    intros x. now apply Hhi'.
Qed.

(** ** DeltaFormat: the loops *)

Lemma at_app_l (l t : SrcMap) (i : nat) :
  (i < length l)%nat -> at_ (l ++ t) i = at_ l i.
Proof. intros Hi. unfold at_. now apply app_nth1. Qed.

Lemma at_middle (l t : SrcMap) (x : SrcMapElem) :
  at_ (l ++ x :: t) (length l) = x.
Proof. unfold at_. apply nth_middle. Qed.

Lemma set_at_middle (l t : SrcMap) (x v : SrcMapElem) :
  set_at (l ++ x :: t) (length l) v = l ++ v :: t.
Proof. induction l as [ | a l IH]; simpl; [reflexivity | now rewrite IH]. Qed.

Lemma resize_firstn (v : SrcMap) (n : nat) :
  (n <= length v)%nat -> resize v n = firstn n v.
Proof.
  intros Hn. unfold resize.
  replace (n - length v)%nat with O by lia. apply app_nil_r.
Qed.

Lemma differences_snoc (a x : SrcMapElem) (r : SrcMap) :
  differences a (r ++ [x]) =
  differences a r ++ [SrcMapElem_sub x (at_ (a :: r) (length r))].
Proof.
  revert a; induction r as [ | b r IH]; intros a; simpl; [reflexivity | ].
  now rewrite IH.
Qed.

(** The backward loop leaves the first entry and replaces every other one
    by its difference from the entry before it; what lies behind the
    index it starts at is not touched. *)
Lemma delta_loop_differences (a : SrcMapElem) (r rest : SrcMap) :
  delta_loop ((a :: r) ++ rest) (length r) = (a :: differences a r) ++ rest.
Proof.
  revert rest; induction r as [ | x r IH] using rev_ind; intros rest.
  - reflexivity.
  - rewrite length_app, Nat.add_comm. simpl plus. cbn [delta_loop].
    rewrite app_comm_cons, <- app_assoc. simpl app at 2 4.
    change (S (length r)) with (length (a :: r)).
    rewrite at_middle, set_at_middle.
    rewrite at_app_l by (simpl; lia).
    rewrite IH, differences_snoc.
    rewrite app_comm_cons, <- app_assoc. reflexivity.
Qed.

Lemma highest_kept_app_l (l t : SrcMap) (highest_pc : Z) (i : nat) :
  (i < length l)%nat ->
  highest_kept (l ++ t) highest_pc i = highest_kept l highest_pc i.
Proof.
  induction i as [ | j IH]; intros Hi; [reflexivity | ].
  cbn [highest_kept]. rewrite at_app_l by assumption.
  rewrite IH by lia. reflexivity.
Qed.

(** On a map that holds the entries below [highest_pc] first, the scan
    from the back stops at the last of them, or at entry 0. *)
Lemma highest_kept_partitioned (lo hi : SrcMap) (highest_pc : Z) :
  Forall (fun e => below highest_pc e = true) lo ->
  Forall (fun e => below highest_pc e = false) hi ->
  highest_kept (lo ++ hi) highest_pc (length (lo ++ hi) - 1)
  = (Nat.max 1 (length lo) - 1)%nat.
Proof.
  intros Hlo. induction hi as [ | x hi IH] using rev_ind; intros Hhi.
  - rewrite app_nil_r.
    destruct lo as [ | a lo] using rev_ind; [reflexivity | clear IHlo].
    rewrite length_app, Nat.add_comm. simpl plus.
    rewrite Nat.sub_succ, Nat.sub_0_r.
    replace (Nat.max 1 (S (length lo)) - 1)%nat with (length lo) by lia.
    destruct lo as [ | b lo]; [reflexivity | ].
    change (length (b :: lo)) with (S (length lo)) at 1.
    cbn [highest_kept].
    change (S (length lo)) with (length (b :: lo)).
    rewrite at_middle.
    apply Forall_app in Hlo as [_ Ha]. inversion Ha as [ | ? ? Hb _]; subst.
    unfold below in Hb. now rewrite Hb.
  - apply Forall_app in Hhi as [Hhi Hx]. inversion Hx as [ | ? ? Hb _]; subst.
    rewrite app_assoc.
    rewrite (length_app (lo ++ hi)), Nat.add_comm. simpl plus.
    rewrite Nat.sub_succ, Nat.sub_0_r.
    destruct (length (lo ++ hi)) as [ | j] eqn:Hlen.
    + destruct lo; [reflexivity | discriminate].
    + cbn [highest_kept]. rewrite <- Hlen, at_middle.
      unfold below in Hb. rewrite Hb.
      rewrite highest_kept_app_l by lia.
      rewrite <- (IH Hhi). f_equal. lia.
Qed.

(** A map sorted by [from_] holds the entries below [highest_pc] first. *)
Lemma sorted_by_from_partitioned (s : SrcMap) (highest_pc : Z) :
  StronglySorted (fun a b => from_ a <= from_ b) s ->
  exists hi, s = filter (below highest_pc) s ++ hi /\
             Forall (fun e => below highest_pc e = false) hi.
Proof.
  induction 1 as [ | a s Hs IH Ha]; simpl.
  - exists []. split; [reflexivity | constructor].
  - destruct (below highest_pc a) eqn:Hb.
    + destruct IH as (hi & Heq & Hhi). exists hi.
      split; [simpl; now rewrite <- Heq | assumption].
    + assert (Hall : Forall (fun e => below highest_pc e = false) (a :: s)).
      { constructor; [assumption | ].
        revert Ha. apply Forall_impl. intros e He.
        unfold below in *. rewrite Z.ltb_ge in *. lia. }
      exists (a :: s). split; [ | assumption].
      inversion Hall as [ | ? ? _ Hs']; subst.
      replace (filter (below highest_pc) s) with (@nil SrcMapElem);
        [reflexivity | ].
      symmetry. clear - Hs'. induction Hs' as [ | e s He _ IH]; simpl;
        [reflexivity | now rewrite He].
Qed.

Lemma filter_below_all (highest_pc : Z) (m : SrcMap) :
  Forall (fun e => below highest_pc e = true) (filter (below highest_pc) m).
Proof. apply Forall_forall. intros e He. now apply filter_In in He. Qed.

Lemma count_below_perm (highest_pc : Z) (m m' : SrcMap) :
  Permutation m m' -> count_below highest_pc m = count_below highest_pc m'.
Proof.
  unfold count_below.
  induction 1 as [ | e m m' _ IH | a b m | m m' m'' _ IH1 _ IH2]; simpl.
  - reflexivity.
  - destruct (below highest_pc e); simpl; now rewrite IH.
  - destruct (below highest_pc a), (below highest_pc b); reflexivity.
  - now rewrite IH1.
Qed.

Lemma count_below_none (highest_pc : Z) (m : SrcMap) :
  Forall (fun e => highest_pc <= from_ e) m -> count_below highest_pc m = 0%nat.
Proof.
  unfold count_below. induction 1 as [ | e r He _ IH]; simpl; [reflexivity | ].
  unfold below at 1. destruct (Z.ltb_spec (from_ e) highest_pc); [lia | ].
  exact IH.
Qed.

(** The truncation of a map sorted by [from_]: the entries below
    [highest_pc] stay, and entry 0 when there is none. *)
Lemma drop_highest_sorted (s : SrcMap) (highest_pc : Z) :
  s <> [] ->
  StronglySorted (fun a b => from_ a <= from_ b) s ->
  drop_highest s highest_pc
  = firstn (Nat.max 1 (count_below highest_pc s)) s /\
  filter (below highest_pc) s = firstn (count_below highest_pc s) s /\
  (Nat.max 1 (count_below highest_pc s) <= length s)%nat.
Proof.
  intros Hne Hs. unfold drop_highest, size, count_below.
  destruct (sorted_by_from_partitioned s highest_pc Hs) as (hi & Heq & Hhi).
  pose proof (filter_below_all highest_pc s) as Hlo.
  remember (filter (below highest_pc) s) as lo eqn:Hdef. clear Hdef.
  subst s. cbv zeta.
  rewrite (highest_kept_partitioned lo hi highest_pc Hlo Hhi).
  assert (Hlen : (Nat.max 1 (length lo) <= length (lo ++ hi))%nat).
  { rewrite length_app. destruct lo, hi; simpl in *; try lia. congruence. }
  repeat split; [ | | assumption].
  - rewrite resize_firstn by lia. f_equal. lia.
  - rewrite firstn_app, Nat.sub_diag, firstn_all.
    simpl. now rewrite app_nil_r.
Qed.

(** ** DeltaFormat *)

Lemma SrcMapElem_add_sub (prev e : SrcMapElem) :
  SrcMapElem_valid e -> SrcMapElem_add prev (SrcMapElem_sub e prev) = e.
Proof.
  intros [Hf Ht]. destruct e as [f t], prev as [pf pt].
  unfold SrcMapElem_add, SrcMapElem_sub, is_uint32, is_int32 in *; simpl in *.
  f_equal.
  - unfold to_uint32. rewrite Z.add_mod_idemp_r by lia.
    replace (pf + (f - pf)) with f by lia. now apply Z.mod_small.
  - unfold to_int32.
    replace (pt + ((t - pt + 2 ^ 31) mod 2 ^ 32 - 2 ^ 31) + 2 ^ 31)
      with (pt + (t - pt + 2 ^ 31) mod 2 ^ 32) by lia.
    rewrite Z.add_mod_idemp_r by lia.
    replace (pt + (t - pt + 2 ^ 31)) with (t + 2 ^ 31) by lia.
    rewrite Z.mod_small; lia.
Qed.

(** Running sums undo differences, on values the fields can hold. *)
Lemma accumulate_differences (prev : SrcMapElem) (m : SrcMap) :
  Forall SrcMapElem_valid m -> accumulate prev (differences prev m) = m.
Proof.
  intros Hm; revert prev.
  induction Hm as [ | e m He _ IH]; intros prev; simpl; [reflexivity | ].
  rewrite (SrcMapElem_add_sub prev e He). now rewrite IH.
Qed.

Lemma differences_length (prev : SrcMapElem) (m : SrcMap) :
  length (differences prev m) = length m.
Proof.
  revert prev; induction m as [ | e r IH]; intros prev; simpl;
    [reflexivity | now rewrite IH].
Qed.

Lemma Forall_firstn {A : Type} (P : A -> Prop) (n : nat) (l : list A) :
  Forall P l -> Forall P (firstn n l).
Proof.
  intros Hl. apply Forall_forall. intros x Hx.
  rewrite Forall_forall in Hl. apply Hl.
  rewrite <- (firstn_skipn n l). apply in_or_app. now left.
Qed.

Section DeltaFormatProperties.

Variable std_sort : forall A : Type, (A -> A -> bool) -> list A -> list A.
Hypothesis std_sort_ok : std_sort_contract std_sort.

Lemma SortByFrom_sorted (this : SrcMap) :
  Permutation this (SortByFrom std_sort this) /\
  StronglySorted (fun a b => from_ a <= from_ b) (SortByFrom std_sort this).
Proof. apply (std_sort_by_key std_sort _ from_ this std_sort_ok). Qed.

(** Entry 0 after [SortByFrom] has the least [from_] of the map. *)
Lemma SortByFrom_least (this : SrcMap) :
  this <> [] ->
  In (at_ (SortByFrom std_sort this) 0) this /\
  Forall (fun e => from_ (at_ (SortByFrom std_sort this) 0) <= from_ e) this.
Proof.
  intros Hne. destruct (SortByFrom_sorted this) as [Hperm Hs].
  destruct (SortByFrom std_sort this) as [ | a s].
  - apply Permutation_sym, Permutation_nil in Hperm. contradiction.
  - change (at_ (a :: s) 0) with a. split.
    + eapply Permutation_in; [apply Permutation_sym; eassumption | now left].
    + apply (Permutation_Forall (Permutation_sym Hperm)).
      inversion Hs; subst. constructor; [lia | assumption].
Qed.

(** [DeltaFormat] on a map that is not empty, without the vector
    operations: of the map sorted by [from_] the first
    [max 1 (count_below highest_pc this)] entries are kept and replaced
    by their differences, unless the assertion on entry 0 fails. *)
Lemma DeltaFormat_unfold kEnableDChecks start highest_pc (this : SrcMap) :
  this <> [] ->
  let sorted := SortByFrom std_sort this in
  let kept := firstn (Nat.max 1 (count_below highest_pc this)) sorted in
  DeltaFormat std_sort kEnableDChecks start highest_pc this
  = (DCHECK kEnableDChecks (from_ (at_ sorted 0) >=? from_ start) ;;
     Done (differences start kept)) /\
  length kept = Nat.max 1 (count_below highest_pc this) /\
  filter (below highest_pc) sorted
  = firstn (count_below highest_pc this) sorted.
Proof.
  intros Hne sorted kept.
  destruct (SortByFrom_sorted this) as [Hperm Hs]. fold sorted in Hperm, Hs.
  assert (Hne' : sorted <> []).
  { intros E. rewrite E in Hperm.
    now apply Permutation_sym, Permutation_nil in Hperm. }
  destruct (drop_highest_sorted sorted highest_pc Hne' Hs)
    as (Hdrop & Hfilter & Hlen).
  rewrite <- (count_below_perm highest_pc _ _ Hperm) in Hdrop, Hfilter, Hlen.
  fold kept in Hdrop.
  repeat split; [ | now apply firstn_length_le | assumption].
  unfold DeltaFormat. destruct this as [ | e0 this0]; [congruence | ].
  simpl negb. cbv iota zeta. fold sorted. rewrite Hdrop.
  assert (Hkept : exists a r, sorted = a :: r /\
                              kept = a :: firstn
                                (Nat.max 1 (count_below highest_pc (e0 :: this0)) - 1) r).
  { destruct sorted as [ | a r]; [congruence | ]. exists a, r.
    split; [reflexivity | ]. subst kept.
    destruct (Nat.max 1 (count_below highest_pc (e0 :: this0))) eqn:E; [lia | ].
    simpl. now rewrite Nat.sub_0_r. }
  destruct Hkept as (a & r & -> & ->).
  set (r' := firstn _ r).
  unfold size. simpl length. rewrite Nat.sub_succ, Nat.sub_0_r.
  pose proof (delta_loop_differences a r' []) as Hloop.
  rewrite !app_nil_r in Hloop. rewrite Hloop.
  reflexivity.
Qed.

(** C1. Round trip of the delta encoding. For a map that is not empty
    and holds values of its fields' types, and a baseline [start] whose
    [from_] is not above any [from_] of the map, [DeltaFormat] returns,
    and the running sums of its result started from [start] are the
    entries retained, with their original [from_] and [to_]: the first
    [max 1 (count_below highest_pc this)] entries of the map in the
    order of [from_]. These are the entries below [highest_pc], or,
    when there is none, entry 0 of the sorted map alone. The map need
    not be canonical. *)
Theorem DeltaFormat_round_trip kEnableDChecks start highest_pc (this : SrcMap)
    (Hnonempty : this <> [])
    (Hvalid : Forall SrcMapElem_valid this)
    (Hstart : Forall (fun e => from_ start <= from_ e) this) :
  let sorted := SortByFrom std_sort this in
  exists deltas,
    DeltaFormat std_sort kEnableDChecks start highest_pc this = Done deltas /\
    accumulate start deltas
    = firstn (Nat.max 1 (count_below highest_pc this)) sorted /\
    Permutation this sorted /\
    (forall e, In e (accumulate start deltas) -> In e this) /\
    (forall e, In e this -> below highest_pc e = true ->
               In e (accumulate start deltas)) /\
    ((0 < count_below highest_pc this)%nat ->
     accumulate start deltas = filter (below highest_pc) sorted) /\
    (count_below highest_pc this = 0%nat ->
     accumulate start deltas = [at_ sorted 0]).
Proof.
  intros sorted.
  destruct (DeltaFormat_unfold kEnableDChecks start highest_pc this Hnonempty)
    as (Hrun & Hlen & Hfilter).
  destruct (SortByFrom_sorted this) as [Hperm Hs].
  destruct (SortByFrom_least this Hnonempty) as [Hin0 _].
  fold sorted in Hrun, Hlen, Hfilter, Hperm, Hs, Hin0.
  set (kept := firstn (Nat.max 1 (count_below highest_pc this)) sorted) in *.
  exists (differences start kept).
  assert (Hcheck : (from_ (at_ sorted 0) >=? from_ start) = true).
  { rewrite Forall_forall in Hstart. specialize (Hstart _ Hin0).
    rewrite Z.geb_le. exact Hstart. }
  assert (Hacc : accumulate start (differences start kept) = kept).
  { apply accumulate_differences, Forall_firstn.
    apply (Permutation_Forall Hperm Hvalid). }
  rewrite Hacc.
  assert (Hpos : (0 < count_below highest_pc this)%nat ->
                 kept = filter (below highest_pc) sorted).
  { intros Hc. rewrite Hfilter. unfold kept. f_equal. lia. }
  repeat split.
  - rewrite Hrun, Hcheck. unfold DCHECK. now rewrite andb_false_r.
  - exact Hperm.
  - intros e He. eapply Permutation_in;
      [apply Permutation_sym; eassumption | ].
    unfold kept in He.
    rewrite <- (firstn_skipn (Nat.max 1 (count_below highest_pc this)) sorted).
    apply in_or_app. now left.
  - intros e He Hb.
    assert (Hc : (0 < count_below highest_pc this)%nat).
    { unfold count_below.
      assert (In e (filter (below highest_pc) this)) as Hin
        by (apply filter_In; now split).
      destruct (filter (below highest_pc) this); [destruct Hin | simpl; lia]. }
    rewrite (Hpos Hc). apply filter_In. split; [ | assumption].
    eapply Permutation_in; eassumption.
  - exact Hpos.
  - intros Hc. unfold kept. rewrite Hc. simpl.
    destruct sorted as [ | a r]; [ | reflexivity].
    apply Permutation_sym, Permutation_nil in Hperm. contradiction.
Qed.

(** C5. The truncation keeps an anchor. For a map that is not empty,
    the map after the block that gets rid of the highest values has
    [max 1 n] entries, [n] being the number of entries of the input with
    [from_] below [highest_pc]; so it has one entry, entry 0, when no
    [from_] is below [highest_pc]. The rest of [DeltaFormat] keeps the
    size: the map it returns is not empty and has that size, and it
    returns unless debug assertions are on and [start] is above some
    [from_], when the assertion that follows the truncation stops it. *)
Theorem DeltaFormat_keeps_anchor kEnableDChecks start highest_pc
    (this : SrcMap) (Hnonempty : this <> []) :
  let kept := Nat.max 1 (count_below highest_pc this) in
  size (drop_highest (SortByFrom std_sort this) highest_pc) = kept /\
  match DeltaFormat std_sort kEnableDChecks start highest_pc this with
  | Done this' => size this' = kept /\ this' <> []
  | DcheckFailed =>
      kEnableDChecks = true /\ exists e, In e this /\ from_ e < from_ start
  end /\
  (Forall (fun e => highest_pc <= from_ e) this ->
   kept = 1%nat /\
   drop_highest (SortByFrom std_sort this) highest_pc
   = [at_ (SortByFrom std_sort this) 0]).
Proof.
  intros kept.
  destruct (DeltaFormat_unfold kEnableDChecks start highest_pc this Hnonempty)
    as (Hrun & Hlen & _).
  destruct (SortByFrom_sorted this) as [Hperm Hs].
  destruct (SortByFrom_least this Hnonempty) as [Hin0 _].
  set (sorted := SortByFrom std_sort this) in *.
  assert (Hne' : sorted <> []).
  { intros E. rewrite E in Hperm.
    now apply Permutation_sym, Permutation_nil in Hperm. }
  destruct (drop_highest_sorted sorted highest_pc Hne' Hs) as (Hdrop & _ & _).
  rewrite <- (count_below_perm highest_pc _ _ Hperm) in Hdrop.
  fold kept in Hdrop, Hlen, Hrun.
  assert (Hsize : forall p, size (differences p (firstn kept sorted)) = kept).
  { intros p. unfold size. now rewrite differences_length. }
  assert (Hsome : forall p, differences p (firstn kept sorted) <> []).
  { intros p E. pose proof (Hsize p) as Hk. rewrite E in Hk.
    simpl in Hk. lia. }
  split; [ | split].
  - rewrite Hdrop. exact Hlen.
  - rewrite Hrun. unfold DCHECK.
    destruct kEnableDChecks; simpl; [ | now split].
    destruct (Z.geb_spec (from_ (at_ sorted 0)) (from_ start)) as [Hge | Hlt];
      simpl; [now split | ].
    split; [reflexivity | ]. exists (at_ sorted 0). now split.
  - intros Hnone. apply count_below_none in Hnone.
    split; [lia | ].
    rewrite Hdrop. unfold kept. rewrite Hnone. simpl.
    destruct sorted; [congruence | reflexivity].
Qed.

(** C7. The worked example: from [(10,1); (20,2); (90,3)] with the
    baseline [(5,0)] and [highest_pc = 50], [DeltaFormat] drops the entry
    at 90 and yields exactly [(5,1); (10,1)], with any [std::sort] and
    with or without debug assertions. *)
Theorem DeltaFormat_example kEnableDChecks :
  DeltaFormat std_sort kEnableDChecks (mkSrcMapElem 5 0) 50
    [mkSrcMapElem 10 1; mkSrcMapElem 20 2; mkSrcMapElem 90 3]
  = Done [mkSrcMapElem 5 1; mkSrcMapElem 10 1].
Proof.
  set (this := [mkSrcMapElem 10 1; mkSrcMapElem 20 2; mkSrcMapElem 90 3]).
  destruct (SortByFrom_sorted this) as [Hperm Hs].
  assert (Hsorted : SortByFrom std_sort this = this).
  { apply (sorted_perm_of_strict from_); [ | assumption ..].
    subst this. repeat constructor; simpl; lia. }
  unfold DeltaFormat. simpl negb. cbv iota. rewrite Hsorted.
  destruct kEnableDChecks; reflexivity.
Qed.

(** C9. The assertion on the baseline. For a map that is not empty and
    holds values of its fields' types, and a baseline whose [from_] is a
    [uint32_t]: when no [from_] of the map is below [start]'s, the
    assertion of [DeltaFormat] holds, so the call returns, and the new
    [from_] of entry 0 is the difference of the least [from_] of the map
    and [start]'s as integers, which is not negative: the subtraction
    does not wrap. When [start]'s [from_] is above that of entry 0 at
    the assertion, which is the least of the map, the assertion fails. *)
Theorem DeltaFormat_baseline_assertion start highest_pc (this : SrcMap)
    (Hnonempty : this <> [])
    (Hvalid : Forall SrcMapElem_valid this)
    (Hstart : is_uint32 (from_ start)) :
  let entry0 := at_ (SortByFrom std_sort this) 0 in
  (In entry0 this /\ Forall (fun e => from_ entry0 <= from_ e) this) /\
  (Forall (fun e => from_ start <= from_ e) this ->
   forall kEnableDChecks, exists this',
     DeltaFormat std_sort kEnableDChecks start highest_pc this = Done this' /\
     from_ (at_ this' 0) = from_ entry0 - from_ start /\
     0 <= from_ entry0 - from_ start) /\
  (from_ entry0 < from_ start ->
   DeltaFormat std_sort true start highest_pc this = DcheckFailed) /\
  ((exists e, In e this /\ from_ e < from_ start) ->
   DeltaFormat std_sort true start highest_pc this = DcheckFailed).
Proof.
  intros entry0.
  destruct (SortByFrom_sorted this) as [Hperm Hs].
  destruct (SortByFrom_least this Hnonempty) as [Hin0 Hleast].
  fold entry0 in Hin0, Hleast.
  assert (Hfail : from_ entry0 < from_ start ->
                  DeltaFormat std_sort true start highest_pc this
                  = DcheckFailed).
  { intros Hlt.
    destruct (DeltaFormat_unfold true start highest_pc this Hnonempty)
      as (Hrun & _ & _).
    rewrite Hrun. fold entry0. unfold DCHECK.
    destruct (Z.geb_spec (from_ entry0) (from_ start)); [lia | reflexivity]. }
  repeat split; try assumption.
  - intros Hall dbg.
    destruct (DeltaFormat_unfold dbg start highest_pc this Hnonempty)
      as (Hrun & Hlen & _).
    fold entry0 in Hrun.
    rewrite Forall_forall in Hall. pose proof (Hall _ Hin0) as Hge.
    exists (differences start
              (firstn (Nat.max 1 (count_below highest_pc this))
                      (SortByFrom std_sort this))).
    split; [ | split; [ | lia]].
    + rewrite Hrun. unfold DCHECK.
      destruct (Z.geb_spec (from_ entry0) (from_ start)); [ | lia].
      now rewrite andb_false_r.
    + subst entry0.
      destruct (SortByFrom std_sort this) as [ | a r].
      { apply Permutation_sym, Permutation_nil in Hperm. contradiction. }
      destruct (Nat.max 1 (count_below highest_pc this)) eqn:E; [lia | ].
      change (at_ (a :: r) 0) with a in *. simpl.
      change (from_ (at_ (SrcMapElem_sub a start :: differences a (firstn n r)) 0))
        with (to_uint32 (from_ a - from_ start)).
      apply to_uint32_id.
      rewrite Forall_forall in Hvalid. destruct (Hvalid _ Hin0) as [Hf _].
      unfold is_uint32 in *. lia.
  - intros (e & He & Hlt). apply Hfail.
    rewrite Forall_forall in Hleast. specialize (Hleast _ He). lia.
Qed.

End DeltaFormatProperties.

(** ** LinkerPatch *)

Lemma LinkerPatchType_value_inj (s t : LinkerPatchType) :
  LinkerPatchType_value s = LinkerPatchType_value t <-> s = t.
Proof. destruct s, t; simpl; split; intros H; congruence || lia. Qed.

Lemma LinkerPatchType_eqb_eq (s t : LinkerPatchType) :
  LinkerPatchType_eqb s t = true <-> s = t.
Proof.
  unfold LinkerPatchType_eqb. rewrite Z.eqb_eq.
  apply LinkerPatchType_value_inj.
Qed.

(** [operator==] is equality of the four fields. *)
Lemma LinkerPatch_eq_iff (a b : LinkerPatch) :
  LinkerPatch_eq a b = true <-> a = b.
Proof.
  unfold LinkerPatch_eq.
  rewrite !andb_true_iff, !Z.eqb_eq, LinkerPatchType_eqb_eq.
  destruct a, b; simpl. split.
  - intros [[[-> ->] ->] ->]. reflexivity.
  - intros E. injection E as -> -> -> ->. auto.
Qed.

(** [operator<] is the lexicographic order on the four fields. *)
Lemma LinkerPatch_lt_iff (a b : LinkerPatch) :
  LinkerPatch_lt a b = true <-> LinkerPatch_lex a b.
Proof.
  unfold LinkerPatch_lt, LinkerPatch_lex, LinkerPatchType_eqb.
  pose proof (LinkerPatchType_value_inj (patch_type_ a) (patch_type_ b)) as Hty.
  destruct (Z.eqb_spec (literal_offset_ a) (literal_offset_ b));
    destruct (Z.eqb_spec (LinkerPatchType_value (patch_type_ a))
                         (LinkerPatchType_value (patch_type_ b)));
    destruct (Z.eqb_spec (target_idx_ a) (target_idx_ b));
    simpl; rewrite Z.ltb_lt; intuition lia.
Qed.

Lemma LinkerPatch_lex_irrefl (a : LinkerPatch) : ~ LinkerPatch_lex a a.
Proof. unfold LinkerPatch_lex. lia. Qed.

Lemma LinkerPatch_lex_trans (a b c : LinkerPatch) :
  LinkerPatch_lex a b -> LinkerPatch_lex b c -> LinkerPatch_lex a c.
Proof.
  unfold LinkerPatch_lex.
  pose proof (LinkerPatchType_value_inj (patch_type_ a) (patch_type_ b)).
  pose proof (LinkerPatchType_value_inj (patch_type_ b) (patch_type_ c)).
  pose proof (LinkerPatchType_value_inj (patch_type_ a) (patch_type_ c)).
  intuition (try congruence; try lia).
Qed.

Lemma LinkerPatch_lex_total (a b : LinkerPatch) :
  a <> b -> LinkerPatch_lex a b \/ LinkerPatch_lex b a.
Proof.
  intros Hne.
  assert (Hdiff : literal_offset_ a = literal_offset_ b ->
                  LinkerPatchType_value (patch_type_ a)
                  = LinkerPatchType_value (patch_type_ b) ->
                  target_idx_ a = target_idx_ b ->
                  target_dex_file_ a = target_dex_file_ b -> False).
  { intros Ho Ht Hi Hd. apply Hne. apply LinkerPatchType_value_inj in Ht.
    destruct a, b; simpl in *. congruence. }
  unfold LinkerPatch_lex.
  rewrite <- !LinkerPatchType_value_inj. lia.
Qed.

(** C3. The ordering of linker patches is a strict total order and is the
    lexicographic order on [(literal_offset_, patch_type_, target_idx_,
    target_dex_file_)]: of two patches that differ in some field exactly
    one is below the other, [<] holds exactly when the lexicographic
    order does, [==] does not hold, no patch is below itself and [<] is
    transitive. *)
Theorem LinkerPatch_lt_strict_total_order (a b : LinkerPatch) (Hne : a <> b) :
  ((LinkerPatch_lt a b = true /\ LinkerPatch_lt b a = false) \/
   (LinkerPatch_lt a b = false /\ LinkerPatch_lt b a = true)) /\
  (LinkerPatch_lt a b = true <-> LinkerPatch_lex a b) /\
  (LinkerPatch_lt b a = true <-> LinkerPatch_lex b a) /\
  LinkerPatch_eq a b = false /\
  LinkerPatch_lt a a = false /\
  (forall c, LinkerPatch_lt a b = true -> LinkerPatch_lt b c = true ->
             LinkerPatch_lt a c = true).
Proof.
  assert (Hirr : forall p, LinkerPatch_lt p p = false).
  { intros p. destruct (LinkerPatch_lt p p) eqn:E; [ | reflexivity].
    apply LinkerPatch_lt_iff in E. now apply LinkerPatch_lex_irrefl in E. }
  assert (Hasym : forall p q, LinkerPatch_lt p q = true ->
                              LinkerPatch_lt q p = false).
  { intros p q Hpq. destruct (LinkerPatch_lt q p) eqn:E; [ | reflexivity].
    apply LinkerPatch_lt_iff in Hpq, E.
    destruct (LinkerPatch_lex_irrefl p). eapply LinkerPatch_lex_trans; eauto. }
  repeat split; try apply LinkerPatch_lt_iff.
  - destruct (LinkerPatch_lex_total a b Hne) as [H | H];
      apply LinkerPatch_lt_iff in H; [left | right]; auto.
  - destruct (LinkerPatch_eq a b) eqn:E; [ | reflexivity].
    apply LinkerPatch_eq_iff in E. contradiction.
  - apply Hirr.
  - intros c Hab Hbc. apply LinkerPatch_lt_iff in Hab, Hbc.
    apply LinkerPatch_lt_iff. eapply LinkerPatch_lex_trans; eauto.
Qed.

(** C8. The accessors and the kinds of patches. On a patch built by
    [MethodPatch], [CodePatch] or [RelativeCodePatch] the assertion of
    [TargetMethod] holds, and the call returns the reference made of the
    dex file and the method index supplied; on a patch built by
    [TypePatch] the assertions of [TargetTypeDexFile] and
    [TargetTypeIndex] hold, and the calls return the dex file and the
    type index supplied. The other way round the assertion is violated:
    with debug assertions on, [TargetMethod] on a [TypePatch], and
    [TargetTypeDexFile] and [TargetTypeIndex] on the three other kinds,
    stop at the assertion. *)
Theorem LinkerPatch_accessor_contracts (literal_offset dex idx : Z) :
  (forall kEnableDChecks,
     TargetMethod kEnableDChecks (MethodPatch literal_offset dex idx)
     = Done (mkMethodReference dex idx) /\
     TargetMethod kEnableDChecks (CodePatch literal_offset dex idx)
     = Done (mkMethodReference dex idx) /\
     TargetMethod kEnableDChecks (RelativeCodePatch literal_offset dex idx)
     = Done (mkMethodReference dex idx) /\
     TargetTypeDexFile kEnableDChecks (TypePatch literal_offset dex idx)
     = Done dex /\
     TargetTypeIndex kEnableDChecks (TypePatch literal_offset dex idx)
     = Done idx) /\
  TargetMethod true (TypePatch literal_offset dex idx) = DcheckFailed /\
  TargetTypeDexFile true (MethodPatch literal_offset dex idx) = DcheckFailed /\
  TargetTypeDexFile true (CodePatch literal_offset dex idx) = DcheckFailed /\
  TargetTypeDexFile true (RelativeCodePatch literal_offset dex idx)
  = DcheckFailed /\
  TargetTypeIndex true (MethodPatch literal_offset dex idx) = DcheckFailed /\
  TargetTypeIndex true (CodePatch literal_offset dex idx) = DcheckFailed /\
  TargetTypeIndex true (RelativeCodePatch literal_offset dex idx)
  = DcheckFailed.
Proof.
  repeat split; try reflexivity; destruct kEnableDChecks; reflexivity.
Qed.

(** * The properties at concrete inputs, with insertion sort as [std::sort] *)

Lemma SrcMapElem_key_decides_operators_witness :
  SrcMapElem_valid (mkSrcMapElem 7 (-1)) /\
  SrcMapElem_valid (mkSrcMapElem 3 2) /\
  SrcMapElem_lt (mkSrcMapElem 7 (-1)) (mkSrcMapElem 3 2) = true.
Proof.
  assert (Ha : SrcMapElem_valid (mkSrcMapElem 7 (-1)))
    by (unfold SrcMapElem_valid, is_uint32, is_int32; simpl; lia).
  assert (Hb : SrcMapElem_valid (mkSrcMapElem 3 2))
    by (unfold SrcMapElem_valid, is_uint32, is_int32; simpl; lia).
  split; [exact Ha | split; [exact Hb | ]].
  apply (SrcMapElem_key_decides_operators _ _ Ha Hb). simpl. lia.
Defined.

Lemma Arrange_canonical_witness :
  canonical
    (Arrange insertion_sort
       [mkSrcMapElem 30 1; mkSrcMapElem 20 2; mkSrcMapElem 10 3;
        mkSrcMapElem 20 2; mkSrcMapElem 5 (-1); mkSrcMapElem 30 1]).
Proof.
  exact (proj1 (Arrange_canonical insertion_sort insertion_sort_contract
                  [mkSrcMapElem 30 1; mkSrcMapElem 20 2; mkSrcMapElem 10 3;
                   mkSrcMapElem 20 2; mkSrcMapElem 5 (-1); mkSrcMapElem 30 1])).
Defined.

Lemma Arrange_idempotent_witness :
  Arrange insertion_sort
    (Arrange insertion_sort
       [mkSrcMapElem 30 1; mkSrcMapElem 20 2; mkSrcMapElem 20 2])
  = Arrange insertion_sort
      [mkSrcMapElem 30 1; mkSrcMapElem 20 2; mkSrcMapElem 20 2].
Proof.
  exact (proj1 (Arrange_idempotent insertion_sort insertion_sort_contract
                  [mkSrcMapElem 30 1; mkSrcMapElem 20 2; mkSrcMapElem 20 2])).
Defined.

Lemma FindByTo_first_not_below_witness :
  canonical [mkSrcMapElem 5 (-1); mkSrcMapElem 30 1; mkSrcMapElem 20 2;
             mkSrcMapElem 10 3] /\
  FindByTo [mkSrcMapElem 5 (-1); mkSrcMapElem 30 1; mkSrcMapElem 20 2;
            mkSrcMapElem 10 3] 2 = 2%nat.
Proof.
  assert (Hc : canonical [mkSrcMapElem 5 (-1); mkSrcMapElem 30 1;
                          mkSrcMapElem 20 2; mkSrcMapElem 10 3])
    by (repeat constructor; reflexivity).
  split; [exact Hc | ].
  destruct (FindByTo_first_not_below _ 2 Hc) as (_ & _ & _ & _ & Heq).
  rewrite Heq. reflexivity.
Defined.

Lemma DeltaFormat_round_trip_witness :
  exists deltas,
    DeltaFormat insertion_sort true (mkSrcMapElem 5 0) 50
      [mkSrcMapElem 90 3; mkSrcMapElem 10 1; mkSrcMapElem 20 2]
    = Done deltas /\
    accumulate (mkSrcMapElem 5 0) deltas
    = [mkSrcMapElem 10 1; mkSrcMapElem 20 2].
Proof.
  destruct (DeltaFormat_round_trip insertion_sort insertion_sort_contract
              true (mkSrcMapElem 5 0) 50
              [mkSrcMapElem 90 3; mkSrcMapElem 10 1; mkSrcMapElem 20 2])
    as (deltas & Hrun & Hacc & _).
  - discriminate.
  - repeat constructor; unfold is_uint32, is_int32; simpl; lia.
  - repeat constructor; simpl; lia.
  - exists deltas. split; [exact Hrun | ]. rewrite Hacc. reflexivity.
Defined.

Lemma DeltaFormat_keeps_anchor_witness :
  size (drop_highest
          (SortByFrom insertion_sort [mkSrcMapElem 90 3; mkSrcMapElem 70 1])
          50) = 1%nat.
Proof.
  exact (proj1 (DeltaFormat_keeps_anchor insertion_sort insertion_sort_contract
                  true (mkSrcMapElem 5 0) 50
                  [mkSrcMapElem 90 3; mkSrcMapElem 70 1]
                  ltac:(discriminate))).
Defined.

Lemma DeltaFormat_example_witness :
  DeltaFormat insertion_sort true (mkSrcMapElem 5 0) 50
    [mkSrcMapElem 10 1; mkSrcMapElem 20 2; mkSrcMapElem 90 3]
  = Done [mkSrcMapElem 5 1; mkSrcMapElem 10 1].
Proof.
  exact (DeltaFormat_example insertion_sort insertion_sort_contract true).
Defined.

Lemma DeltaFormat_baseline_assertion_witness :
  exists this',
    DeltaFormat insertion_sort true (mkSrcMapElem 5 0) 50
      [mkSrcMapElem 20 2; mkSrcMapElem 10 1] = Done this' /\
    from_ (at_ this' 0) = 5.
Proof.
  destruct (DeltaFormat_baseline_assertion insertion_sort
              insertion_sort_contract (mkSrcMapElem 5 0) 50
              [mkSrcMapElem 20 2; mkSrcMapElem 10 1])
    as (_ & Hholds & _).
  - discriminate.
  - repeat constructor; unfold is_uint32, is_int32; simpl; lia.
  - unfold is_uint32; simpl; lia.
  - destruct (Hholds ltac:(repeat constructor; simpl; lia) true)
      as (this' & Hrun & Hfrom & _).
    exists this'. split; [exact Hrun | ]. rewrite Hfrom. reflexivity.
Defined.

Lemma LinkerPatch_lt_strict_total_order_witness :
  MethodPatch 8 100 3 <> TypePatch 8 100 3 /\
  (LinkerPatch_lt (MethodPatch 8 100 3) (TypePatch 8 100 3) = true <->
   LinkerPatch_lex (MethodPatch 8 100 3) (TypePatch 8 100 3)).
Proof.
  assert (Hne : MethodPatch 8 100 3 <> TypePatch 8 100 3) by discriminate.
  split; [exact Hne | ].
  exact (proj1 (proj2 (LinkerPatch_lt_strict_total_order _ _ Hne))).
Defined.

(** * Further properties *)

(** ** SrcMapElem *)

Lemma SrcMapElem_int64_inj (a b : SrcMapElem) :
  SrcMapElem_valid a -> SrcMapElem_valid b ->
  SrcMapElem_int64 a = SrcMapElem_int64 b -> a = b.
Proof.
  intros Ha Hb.
  rewrite (SrcMapElem_int64_valid a Ha), (SrcMapElem_int64_valid b Hb).
  destruct Ha as [Hfa Hta], Hb as [Hfb Htb].
  destruct a as [fa ta], b as [fb tb]; simpl in *.
  unfold is_uint32, is_int32 in *. intros E. f_equal; lia.
Qed.

(** The two operators of [SrcMapElem] agree, whatever the entries hold:
    [==] holds exactly when neither entry is below the other, and [<] is a
    strict weak ordering, as [std::sort], [std::unique] and
    [std::lower_bound] need it. *)
Theorem SrcMapElem_operators_consistent (a b : SrcMapElem) :
  SrcMapElem_eq a b = negb (SrcMapElem_lt a b) && negb (SrcMapElem_lt b a) /\
  strict_weak_order SrcMapElem_lt.
Proof.
  split.
  - unfold SrcMapElem_eq, SrcMapElem_lt.
    destruct (Z.eqb_spec (SrcMapElem_int64 a) (SrcMapElem_int64 b));
      destruct (Z.ltb_spec (SrcMapElem_int64 a) (SrcMapElem_int64 b));
      destruct (Z.ltb_spec (SrcMapElem_int64 b) (SrcMapElem_int64 a));
      simpl; try reflexivity; lia.
  - apply (key_ltb_strict_weak_order SrcMapElem_int64).
Qed.

(** The conversion to [uint8_t] keeps the low byte of the sum of the two
    fields taken in the integers: the conversions of [to_] to unsigned and
    of the sum to 32 bits do not show in it. *)
Theorem SrcMapElem_uint8_low_byte (e : SrcMapElem) :
  SrcMapElem_uint8 e = (from_ e + to_ e) mod 2 ^ 8 /\
  0 <= SrcMapElem_uint8 e < 2 ^ 8.
Proof.
  unfold SrcMapElem_uint8, to_uint32. split.
  - rewrite Z.add_mod_idemp_r by lia.
    apply Z.mod_mod_divide. exists (2 ^ 24). reflexivity.
  - apply Z.mod_pos_bound. lia.
Qed.

(** ** Arrange *)

Lemma unique_after_length {A : Type} (eqb : A -> A -> bool) (dest : A) l :
  (length (unique_after eqb dest l) <= length l)%nat.
Proof.
  revert dest; induction l as [ | x r IH]; intros dest; simpl; [lia | ].
  destruct (eqb dest x); simpl.
  - specialize (IH dest). lia.
  - specialize (IH x). lia.
Qed.

Lemma unique_kept_length {A : Type} (eqb : A -> A -> bool) (l : list A) :
  (length (unique_kept eqb l) <= length l)%nat.
Proof.
  destruct l as [ | x r]; simpl; [lia | ].
  pose proof (unique_after_length eqb x r). lia.
Qed.

(** A sorted list without equal keys is strictly sorted. *)
Lemma sorted_NoDup_strict {A : Type} (key : A -> Z) (l : list A) :
  StronglySorted (fun a b => key a <= key b) l ->
  NoDup (map key l) ->
  StronglySorted (fun a b => key a < key b) l.
Proof.
  induction 1 as [ | a l Hl IH Ha]; intros Hnd; constructor.
  - apply IH. now inversion Hnd.
  - inversion Hnd as [ | ? ? Hnotin _]; subst.
    rewrite Forall_forall in *. intros b Hb.
    specialize (Ha b Hb).
    assert (key a <> key b); [ | lia].
    intros E. apply Hnotin. rewrite E. now apply in_map.
Qed.

Section ArrangeFurther.

Variable std_sort : forall A : Type, (A -> A -> bool) -> list A -> list A.
Hypothesis std_sort_ok : std_sort_contract std_sort.

Lemma Arrange_In_iff (this : SrcMap) :
  Forall SrcMapElem_valid this ->
  forall e, In e this <-> In e (Arrange std_sort this).
Proof.
  intros Hvalid e. rewrite (Arrange_unfold _ _ std_sort_ok).
  destruct (std_sort_by_key std_sort _ SrcMapElem_int64 this std_sort_ok)
    as [Hperm Hsorted].
  change (fun a b => SrcMapElem_int64 a <? SrcMapElem_int64 b)
    with SrcMapElem_lt in *.
  destruct (unique_kept_sorted _ Hsorted) as (_ & Hin & Hk).
  set (sorted := std_sort SrcMapElem SrcMapElem_lt this) in *.
  assert (Hback : forall e, In e (unique_kept SrcMapElem_eq sorted) ->
                            In e this).
  { intros e' He. eapply Permutation_in;
      [apply Permutation_sym; eassumption | auto]. }
  rewrite Forall_forall in Hvalid.
  split; [ | apply Hback].
  intros He.
  assert (In (SrcMapElem_int64 e)
             (map SrcMapElem_int64 (unique_kept SrcMapElem_eq sorted)))
    as Hkey.
  { apply Hk, in_map. eapply Permutation_in; eassumption. }
  apply in_map_iff in Hkey as (e' & Heq & He').
  rewrite <- (SrcMapElem_int64_inj e' e); auto.
Qed.

(** [Arrange] keeps the set of entries. For entries within the range of
    their fields, an entry is in the result exactly when it is in the
    input, and it is there once; the result is no longer than the input,
    and empty only for the empty map. *)
Theorem Arrange_same_entries (this : SrcMap)
    (Hvalid : Forall SrcMapElem_valid this) :
  (forall e, In e this <-> In e (Arrange std_sort this)) /\
  NoDup (Arrange std_sort this) /\
  (length (Arrange std_sort this) <= length this)%nat /\
  (Arrange std_sort this = [] <-> this = []).
Proof.
  split; [now apply Arrange_In_iff | ].
  pose proof (Arrange_is_canonical std_sort std_sort_ok this) as Hc.
  rewrite (Arrange_unfold _ _ std_sort_ok) in *.
  destruct (std_sort_by_key std_sort _ SrcMapElem_int64 this std_sort_ok)
    as [Hperm Hsorted].
  change (fun a b => SrcMapElem_int64 a <? SrcMapElem_int64 b)
    with SrcMapElem_lt in *.
  set (sorted := std_sort SrcMapElem SrcMapElem_lt this) in *.
  split; [ | split].
  - apply (NoDup_map_inv SrcMapElem_int64), canonical_NoDup_keys, Hc.
  - rewrite (Permutation_length Hperm). apply unique_kept_length.
  - split.
    + intros E. destruct this as [ | e r]; [reflexivity | exfalso].
      assert (In e sorted) as He
        by (eapply Permutation_in; [eassumption | now left]).
      destruct sorted; [destruct He | discriminate].
    + intros ->. subst sorted.
      apply Permutation_nil in Hperm. now rewrite Hperm.
Qed.

(** On a map without two entries of one composite key [Arrange] only
    sorts: the result is a permutation of the input. *)
Theorem Arrange_of_distinct_keys (this : SrcMap)
    (Hdistinct : NoDup (map SrcMapElem_int64 this)) :
  Permutation this (Arrange std_sort this) /\
  length (Arrange std_sort this) = length this.
Proof.
  rewrite (Arrange_unfold _ _ std_sort_ok).
  destruct (std_sort_by_key std_sort _ SrcMapElem_int64 this std_sort_ok)
    as [Hperm Hsorted].
  change (fun a b => SrcMapElem_int64 a <? SrcMapElem_int64 b)
    with SrcMapElem_lt in *.
  rewrite unique_kept_canonical.
  - split; [assumption | symmetry; now apply Permutation_length].
  - apply (sorted_NoDup_strict SrcMapElem_int64); [assumption | ].
    eapply Permutation_NoDup; [ | eassumption].
    now apply Permutation_map.
Qed.

End ArrangeFurther.

(** ** FindByTo *)

(** Whatever the list holds, the halving loop stays in the range it was
    given. *)
Lemma lower_bound_loop_range {A : Type} (comp : A -> A -> bool) (l : list A)
    (value : A) (len first : nat) :
  (first <= lower_bound_loop comp l value first len <= first + len)%nat.
Proof.
  revert first. induction len as [len IH] using lt_wf_ind; intros first.
  destruct len as [ | n]; simp lower_bound_loop; cbv zeta; [lia | ].
  assert (Hhalf : (Nat.div2 (S n) < S n)%nat) by (apply Nat.lt_div2; lia).
  set (half := Nat.div2 (S n)) in *.
  destruct (nth_error l (first + half)) as [x | ]; [ | lia].
  destruct (comp x value).
  - pose proof (IH (S n - half - 1)%nat ltac:(lia) (S (first + half))). lia.
  - pose proof (IH half Hhalf first). lia.
Qed.

Lemma std_lower_bound_range {A : Type} (comp : A -> A -> bool) (l : list A)
    (value : A) :
  (std_lower_bound comp l value <= length l)%nat.
Proof.
  unfold std_lower_bound.
  pose proof (lower_bound_loop_range comp l value (length l) 0). lia.
Qed.

(** [FindByTo] never yields an iterator past the end, on a map that is
    not sorted either. *)
Theorem FindByTo_in_range (this : SrcMap) (to : Z) :
  (FindByTo this to <= size this)%nat.
Proof. apply std_lower_bound_range. Qed.

(** On a canonical map the result of [FindByTo] splits the entries by
    their keys. *)
Lemma FindByTo_partition (this : SrcMap) (to : Z) :
  canonical this ->
  let k := SrcMapElem_int64 (mkSrcMapElem 0 to) in
  let r := FindByTo this to in
  (forall i x, (i < r)%nat -> nth_error this i = Some x ->
               SrcMapElem_int64 x < k) /\
  (forall i x, (r <= i)%nat -> nth_error this i = Some x ->
               k <= SrcMapElem_int64 x).
Proof.
  intros Hc k r.
  destruct (std_lower_bound_spec SrcMapElem_lt this (mkSrcMapElem 0 to))
    as (_ & Hlo & Hhi).
  { intros i j x y Hij Hx Hy. unfold SrcMapElem_lt. rewrite !Z.ltb_lt.
    destruct (Nat.eq_dec i j) as [-> | Hne]; [congruence | ].
    pose proof (StronglySorted_nth_error _ _ Hc i j x y ltac:(lia) Hx Hy).
    simpl in *. lia. }
  fold (FindByTo this to) in Hlo, Hhi. fold r in Hlo, Hhi.
  unfold SrcMapElem_lt in Hlo, Hhi. fold k in Hlo, Hhi.
  split; intros i x Hi Hx.
  - apply Z.ltb_lt. eauto.
  - apply Z.ltb_ge. eauto.
Qed.

(** [FindByTo] in terms of [to_]. On a canonical map of entries within
    the range of their fields, and for [to] an [int32_t]: every entry
    before the result has a [to_] below [to], every entry from the result
    on has a [to_] of at least [to]; and when some entry has [to_ = to]
    the result is in the map and is the entry with that [to_] and the
    least [from_]. *)
Lemma FindByTo_to_spec (this : SrcMap) (to : Z) :
  canonical this -> Forall SrcMapElem_valid this -> is_int32 to ->
  let r := FindByTo this to in
  (forall i, (i < r)%nat -> to_ (at_ this i) < to) /\
  (forall i, (r <= i < size this)%nat -> to <= to_ (at_ this i)) /\
  ((exists e, In e this /\ to_ e = to) ->
   (r < size this)%nat /\ to_ (at_ this r) = to /\
   forall e, In e this -> to_ e = to -> from_ (at_ this r) <= from_ e).
Proof.
  intros Hc Hvalid Hto r.
  destruct (FindByTo_partition this to Hc) as [Hlo Hhi]. fold r in Hlo, Hhi.
  pose proof (std_lower_bound_range SrcMapElem_lt this (mkSrcMapElem 0 to))
    as Hr.
  fold (FindByTo this to) in Hr. fold r in Hr. fold (size this) in Hr.
  assert (Hk : SrcMapElem_int64 (mkSrcMapElem 0 to) = to * 2 ^ 32).
  { rewrite SrcMapElem_int64_valid; simpl; [lia | ].
    split; [unfold is_uint32; simpl; lia | exact Hto]. }
  rewrite Hk in Hlo, Hhi.
  assert (Hat : forall i, (i < size this)%nat ->
                          nth_error this i = Some (at_ this i)).
  { intros i Hi. unfold at_. now apply nth_error_nth'. }
  rewrite Forall_forall in Hvalid.
  assert (Hkey : forall e, In e this ->
                 SrcMapElem_int64 e = to_ e * 2 ^ 32 + from_ e /\
                 0 <= from_ e < 2 ^ 32).
  { intros e He. pose proof (Hvalid e He) as Hv.
    split; [now apply SrcMapElem_int64_valid | apply Hv]. }
  assert (Hbelow : forall i, (i < r)%nat -> to_ (at_ this i) < to).
  { intros i Hi.
    pose proof (Hat i ltac:(lia)) as Hn.
    pose proof (Hlo i _ Hi Hn).
    destruct (Hkey _ (nth_error_In _ _ Hn)). lia. }
  assert (Habove : forall i, (r <= i < size this)%nat ->
                             to <= to_ (at_ this i)).
  { intros i Hi.
    pose proof (Hat i ltac:(lia)) as Hn.
    pose proof (Hhi i _ ltac:(lia) Hn).
    destruct (Hkey _ (nth_error_In _ _ Hn)). lia. }
  split; [exact Hbelow | split; [exact Habove | ]].
  intros (e & He & Heto).
  assert (Hfrom : forall e', In e' this -> to_ e' = to ->
                  (r < size this)%nat /\
                  SrcMapElem_int64 (at_ this r) <= SrcMapElem_int64 e').
  { intros e' He' Hto'.
    apply In_nth_error in He' as [j Hj].
    assert (Hjlen : (j < size this)%nat).
    { assert (nth_error this j <> None) as Hn by congruence.
      now apply nth_error_Some in Hn. }
    assert (Hrj : (r <= j)%nat).
    { destruct (Nat.le_gt_cases r j) as [ | Hlt]; [assumption | ].
      pose proof (Hbelow j Hlt) as Hb.
      rewrite (Hat j Hjlen) in Hj. injection Hj as <-. lia. }
    split; [lia | ].
    destruct (Nat.eq_dec r j) as [-> | Hne].
    - rewrite (Hat j Hjlen) in Hj. injection Hj as <-. lia.
    - pose proof (StronglySorted_nth_error _ _ Hc r j _ _ ltac:(lia)
                    (Hat r ltac:(lia)) Hj). simpl in *. lia. }
  destruct (Hfrom e He Heto) as [Hrlt Hle].
  pose proof (Habove r ltac:(lia)) as Hge.
  pose proof (Hkey _ (nth_error_In _ _ (Hat r Hrlt))) as [Hkr Hfr].
  assert (Hrto : to_ (at_ this r) = to).
  { destruct (Hkey e He). lia. }
  split; [exact Hrlt | split; [exact Hrto | ]].
  intros e' He' Hto'.
  destruct (Hfrom e' He' Hto') as [_ Hle'].
  destruct (Hkey e' He'). lia.
Qed.

(** [FindByTo] finds the first entry for a source line: the statement of
    [FindByTo_to_spec]. *)
Theorem FindByTo_first_of_line (this : SrcMap) (to : Z)
    (Hcanonical : canonical this)
    (Hvalid : Forall SrcMapElem_valid this)
    (Hto : is_int32 to) :
  let r := FindByTo this to in
  (forall i, (i < r)%nat -> to_ (at_ this i) < to) /\
  (forall i, (r <= i < size this)%nat -> to <= to_ (at_ this i)) /\
  ((exists e, In e this /\ to_ e = to) ->
   (r < size this)%nat /\ to_ (at_ this r) = to /\
   forall e, In e this -> to_ e = to -> from_ (at_ this r) <= from_ e).
Proof. exact (FindByTo_to_spec this to Hcanonical Hvalid Hto). Qed.

Section ArrangeThenFind.

Variable std_sort : forall A : Type, (A -> A -> bool) -> list A -> list A.
Hypothesis std_sort_ok : std_sort_contract std_sort.

(** [Arrange], then [FindByTo]: for any map of entries within the range
    of their fields, a source line [to] has an entry in the map exactly
    when [FindByTo] on the arranged map yields an entry, not the end, and
    that entry has [to_ = to]. *)
Theorem Arrange_then_FindByTo (this : SrcMap) (to : Z)
    (Hvalid : Forall SrcMapElem_valid this)
    (Hto : is_int32 to) :
  let arranged := Arrange std_sort this in
  let r := FindByTo arranged to in
  (exists e, In e this /\ to_ e = to) <->
  ((r < size arranged)%nat /\ to_ (at_ arranged r) = to).
Proof.
  intros arranged r.
  pose proof (Arrange_is_canonical std_sort std_sort_ok this) as Hc.
  fold arranged in Hc.
  assert (Hsame : forall e, In e this <-> In e arranged)
    by (apply (Arrange_In_iff std_sort std_sort_ok this Hvalid)).
  assert (Hvalid' : Forall SrcMapElem_valid arranged).
  { rewrite Forall_forall in *. intros e He. apply Hvalid. now apply Hsame. }
  destruct (FindByTo_to_spec arranged to Hc Hvalid' Hto) as (_ & _ & Hfound).
  fold r in Hfound.
  split.
  - intros (e & He & Heto).
    destruct Hfound as (Hr & Hrto & _); [ | now split].
    exists e. split; [now apply Hsame | assumption].
  - intros [Hr Hrto]. exists (at_ arranged r). split; [ | assumption].
    apply Hsame. unfold at_. apply nth_In. exact Hr.
Qed.

End ArrangeThenFind.

(** ** DeltaFormat *)

(** Two sorted arrangements of the same entries are equal when no two
    entries share a key. *)
Lemma sorted_perm_unique {A : Type} (key : A -> Z) (l l' : list A) :
  NoDup (map key l) ->
  Permutation l l' ->
  StronglySorted (fun a b => key a <= key b) l ->
  StronglySorted (fun a b => key a <= key b) l' ->
  l' = l.
Proof.
  intros Hnd Hperm Hl Hl'.
  apply (sorted_perm_of_strict key); [ | assumption ..].
  now apply sorted_NoDup_strict.
Qed.

Lemma StronglySorted_firstn {A : Type} (R : A -> A -> Prop) (n : nat) l :
  StronglySorted R l -> StronglySorted R (firstn n l).
Proof.
  intros Hl; revert n.
  induction Hl as [ | a l Hl IH Ha]; intros [ | n]; simpl; try constructor.
  - apply IH.
  - now apply Forall_firstn.
Qed.

Lemma NoDup_firstn {A : Type} (n : nat) (l : list A) :
  NoDup l -> NoDup (firstn n l).
Proof.
  intros Hl. rewrite <- (firstn_skipn n l) in Hl.
  now apply NoDup_app_remove_r in Hl.
Qed.

(** On a map sorted by [from_] whose entries are not below [prev], the
    [from_] fields of the differences are the gaps in the integers. *)
Lemma differences_from_gaps (prev : SrcMapElem) (m : SrcMap) :
  is_uint32 (from_ prev) ->
  Forall SrcMapElem_valid m ->
  StronglySorted (fun a b => from_ a <= from_ b) (prev :: m) ->
  map from_ (differences prev m) = gaps (from_ prev) (map from_ m) /\
  Forall (fun d => 0 <= from_ d) (differences prev m).
Proof.
  intros Hprev Hm; revert prev Hprev.
  induction Hm as [ | e m He _ IH]; intros prev Hprev Hs; simpl.
  - split; constructor.
  - inversion Hs as [ | ? ? Hs' Hall]; subst.
    inversion Hall as [ | ? ? Hle _]; subst.
    destruct He as [Hf _].
    destruct (IH e Hf Hs') as [Hg Hpos].
    assert (Hexact : to_uint32 (from_ e - from_ prev) = from_ e - from_ prev).
    { apply to_uint32_id. unfold is_uint32 in *. lia. }
    split.
    + now rewrite Hexact, Hg.
    + constructor; [simpl; rewrite Hexact; lia | exact Hpos].
Qed.

Lemma SrcMapElem_sub_zero (a b : SrcMapElem) :
  SrcMapElem_valid a -> SrcMapElem_valid b ->
  SrcMapElem_sub a b = SrcMapElem_zero -> a = b.
Proof.
  intros [Hfa Hta] [Hfb Htb].
  destruct a as [fa ta], b as [fb tb].
  unfold SrcMapElem_sub, SrcMapElem_zero, to_uint32, to_int32,
    is_uint32, is_int32 in *; simpl in *.
  intros E. injection E as Ef Et.
  f_equal.
  - revert Ef. Z.div_mod_to_equations. lia.
  - revert Et. Z.div_mod_to_equations. lia.
Qed.

(** In the differences of distinct entries none is [(0, 0)]. *)
Lemma differences_nonzero (prev : SrcMapElem) (m : SrcMap) :
  SrcMapElem_valid prev -> Forall SrcMapElem_valid m -> NoDup (prev :: m) ->
  Forall (fun d => d <> SrcMapElem_zero) (differences prev m).
Proof.
  intros Hprev Hm; revert prev Hprev.
  induction Hm as [ | e m He _ IH]; intros prev Hprev Hnd; simpl;
    constructor.
  - intros E. apply SrcMapElem_sub_zero in E; [ | assumption ..].
    subst e. inversion Hnd as [ | ? ? Hnotin _]; subst.
    apply Hnotin. now left.
  - apply IH; [assumption | now inversion Hnd].
Qed.

Section DeltaFormatFurther.

Variable std_sort : forall A : Type, (A -> A -> bool) -> list A -> list A.
Hypothesis std_sort_ok : std_sort_contract std_sort.

(** What the kept entries are: the first ones of the sorted map, which
    starts with the entry of least [from_]. *)
Lemma kept_entries (highest_pc : Z) (this : SrcMap) :
  this <> [] ->
  let sorted := SortByFrom std_sort this in
  exists a r,
    sorted = a :: r /\
    firstn (Nat.max 1 (count_below highest_pc this)) sorted
    = a :: firstn (Nat.max 1 (count_below highest_pc this) - 1) r.
Proof.
  intros Hne sorted.
  destruct (SortByFrom_sorted std_sort std_sort_ok this) as [Hperm _].
  fold sorted in Hperm.
  destruct sorted as [ | a r].
  - apply Permutation_sym, Permutation_nil in Hperm. contradiction.
  - exists a, r. split; [reflexivity | ].
    destruct (Nat.max 1 (count_below highest_pc this)) eqn:E; [lia | ].
    simpl. now rewrite Nat.sub_0_r.
Qed.

(** A map of one entry: the loops do nothing, the entry is kept whatever
    [highest_pc] is, also when its [from_] is not below it, and is
    replaced by its difference from [start] unless the assertion fails. *)
Theorem DeltaFormat_single_entry kEnableDChecks start highest_pc
    (e : SrcMapElem) :
  DeltaFormat std_sort kEnableDChecks start highest_pc [e]
  = (DCHECK kEnableDChecks (from_ e >=? from_ start) ;;
     Done [SrcMapElem_sub e start]).
Proof.
  destruct (DeltaFormat_unfold std_sort std_sort_ok kEnableDChecks start
              highest_pc [e] ltac:(discriminate)) as (Hrun & _ & _).
  destruct (SortByFrom_sorted std_sort std_sort_ok [e]) as [Hperm _].
  apply Permutation_length_1_inv in Hperm.
  rewrite Hperm in Hrun. rewrite Hrun.
  destruct (Nat.max 1 (count_below highest_pc [e])) eqn:E; [lia | ].
  simpl firstn. rewrite firstn_nil. reflexivity.
Qed.

(** When every [from_] is below [highest_pc] nothing is dropped: the
    result is the sorted map with every entry replaced by its difference
    from the entry before it, the first from [start]. *)
Theorem DeltaFormat_nothing_dropped kEnableDChecks start highest_pc
    (this : SrcMap)
    (Hnonempty : this <> [])
    (Hbelow : Forall (fun e => from_ e < highest_pc) this)
    (Hstart : Forall (fun e => from_ start <= from_ e) this) :
  DeltaFormat std_sort kEnableDChecks start highest_pc this
  = Done (differences start (SortByFrom std_sort this)) /\
  length (differences start (SortByFrom std_sort this)) = length this.
Proof.
  destruct (DeltaFormat_unfold std_sort std_sort_ok kEnableDChecks start
              highest_pc this Hnonempty) as (Hrun & _ & _).
  destruct (SortByFrom_sorted std_sort std_sort_ok this) as [Hperm _].
  destruct (SortByFrom_least std_sort std_sort_ok this Hnonempty)
    as [Hin0 _].
  assert (Hcount : count_below highest_pc this = length this).
  { unfold count_below. clear - Hbelow.
    induction Hbelow as [ | e r He _ IH]; simpl; [reflexivity | ].
    unfold below at 1. destruct (Z.ltb_spec (from_ e) highest_pc); [ | lia].
    simpl. now rewrite IH. }
  rewrite Hcount in Hrun.
  replace (Nat.max 1 (length this)) with (length (SortByFrom std_sort this))
    in Hrun.
  2:{ rewrite <- (Permutation_length Hperm).
      destruct this; [congruence | simpl; lia]. }
  rewrite firstn_all in Hrun.
  split.
  - rewrite Hrun. unfold DCHECK.
    rewrite Forall_forall in Hstart. specialize (Hstart _ Hin0).
    destruct (Z.geb_spec (from_ (at_ (SortByFrom std_sort this) 0))
                         (from_ start)); [ | lia].
    now rewrite andb_false_r.
  - rewrite differences_length. symmetry. now apply Permutation_length.
Qed.

(** Without debug assertions [DeltaFormat] returns for every baseline,
    and the running sums of the result still give back the retained
    entries; but when [start]'s [from_] is above the least [from_] of the
    map, the [from_] of entry 0 has wrapped around: it is the difference
    plus [2^32]. *)
Theorem DeltaFormat_release_wraps start highest_pc (this : SrcMap)
    (Hnonempty : this <> [])
    (Hvalid : Forall SrcMapElem_valid this)
    (Hstart : is_uint32 (from_ start)) :
  let sorted := SortByFrom std_sort this in
  exists deltas,
    DeltaFormat std_sort false start highest_pc this = Done deltas /\
    accumulate start deltas
    = firstn (Nat.max 1 (count_below highest_pc this)) sorted /\
    (from_ (at_ sorted 0) < from_ start ->
     from_ (at_ deltas 0) = from_ (at_ sorted 0) - from_ start + 2 ^ 32).
Proof.
  intros sorted.
  destruct (DeltaFormat_unfold std_sort std_sort_ok false start
              highest_pc this Hnonempty) as (Hrun & _ & _).
  destruct (SortByFrom_sorted std_sort std_sort_ok this) as [Hperm _].
  destruct (SortByFrom_least std_sort std_sort_ok this Hnonempty)
    as [Hin0 _].
  destruct (kept_entries highest_pc this Hnonempty) as (a & r & Hs & Hkept).
  fold sorted in Hrun, Hperm, Hin0, Hs, Hkept.
  exists (differences start
            (firstn (Nat.max 1 (count_below highest_pc this)) sorted)).
  split; [exact Hrun | split].
  - apply accumulate_differences, Forall_firstn.
    apply (Permutation_Forall Hperm Hvalid).
  - rewrite Hkept, Hs. change (at_ (a :: r) 0) with a. intros Hlt.
    change (from_ (at_ (differences start (a :: firstn _ r)) 0))
      with (to_uint32 (from_ a - from_ start)).
    rewrite Hs in Hin0. change (at_ (a :: r) 0) with a in Hin0.
    rewrite Forall_forall in Hvalid. destruct (Hvalid _ Hin0) as [Hf _].
    unfold to_uint32, is_uint32 in *.
    Z.div_mod_to_equations. lia.
Qed.

(** The [from_] fields of the result are true gaps. For entries within
    the range of their fields and a baseline that is a [uint32_t] and not
    above any [from_] of the map, no subtraction of [from_] fields wraps:
    the [from_] fields of the result are the differences, taken in the
    integers, of the [from_] values of the retained entries, the first
    from [start]'s, and none is negative. *)
Theorem DeltaFormat_from_gaps kEnableDChecks start highest_pc (this : SrcMap)
    (Hnonempty : this <> [])
    (Hvalid : Forall SrcMapElem_valid this)
    (Hstart_valid : is_uint32 (from_ start))
    (Hstart : Forall (fun e => from_ start <= from_ e) this) :
  let kept := firstn (Nat.max 1 (count_below highest_pc this))
                     (SortByFrom std_sort this) in
  exists deltas,
    DeltaFormat std_sort kEnableDChecks start highest_pc this = Done deltas /\
    map from_ deltas = gaps (from_ start) (map from_ kept) /\
    Forall (fun d => 0 <= from_ d) deltas.
Proof.
  intros kept.
  destruct (DeltaFormat_unfold std_sort std_sort_ok kEnableDChecks start
              highest_pc this Hnonempty) as (Hrun & _ & _).
  destruct (SortByFrom_sorted std_sort std_sort_ok this) as [Hperm Hs].
  destruct (SortByFrom_least std_sort std_sort_ok this Hnonempty)
    as [Hin0 _].
  fold kept in Hrun.
  exists (differences start kept).
  split.
  - rewrite Hrun. unfold DCHECK.
    rewrite Forall_forall in Hstart. specialize (Hstart _ Hin0).
    destruct (Z.geb_spec (from_ (at_ (SortByFrom std_sort this) 0))
                         (from_ start)); [ | lia].
    now rewrite andb_false_r.
  - apply differences_from_gaps; [assumption | | ].
    + apply Forall_firstn, (Permutation_Forall Hperm Hvalid).
    + constructor.
      * now apply StronglySorted_firstn.
      * apply Forall_firstn, (Permutation_Forall Hperm Hstart).
Qed.

(** The result does not depend on the order of the input, nor on the
    [std::sort] at hand, when no two entries have the same [from_]: two
    maps with the same entries are encoded alike. *)
Theorem DeltaFormat_order_independent
    (other_sort : forall A : Type, (A -> A -> bool) -> list A -> list A)
    (other_sort_ok : std_sort_contract other_sort)
    kEnableDChecks start highest_pc (this this' : SrcMap)
    (Hperm : Permutation this this')
    (Hdistinct : NoDup (map from_ this)) :
  DeltaFormat std_sort kEnableDChecks start highest_pc this
  = DeltaFormat other_sort kEnableDChecks start highest_pc this'.
Proof.
  destruct this as [ | e r].
  - apply Permutation_nil in Hperm. subst this'. reflexivity.
  - assert (Hne' : this' <> []).
    { intros ->. apply Permutation_sym, Permutation_nil in Hperm.
      discriminate. }
    destruct (DeltaFormat_unfold std_sort std_sort_ok kEnableDChecks start
                highest_pc (e :: r) ltac:(discriminate)) as (Hrun & _ & _).
    destruct (DeltaFormat_unfold other_sort other_sort_ok kEnableDChecks start
                highest_pc this' Hne') as (Hrun' & _ & _).
    destruct (SortByFrom_sorted std_sort std_sort_ok (e :: r)) as [Hp Hs].
    destruct (SortByFrom_sorted other_sort other_sort_ok this') as [Hp' Hs'].
    assert (Hsame : SortByFrom other_sort this' = SortByFrom std_sort (e :: r)).
    { apply (sorted_perm_unique from_); [ | | assumption ..].
      - eapply Permutation_NoDup; [ | eassumption].
        now apply Permutation_map.
      - rewrite <- Hp, <- Hp'. exact Hperm. }
    rewrite Hrun, Hrun', Hsame.
    now rewrite (count_below_perm highest_pc _ _ Hperm).
Qed.

(** After [Arrange] no difference repeats an entry. For a canonical map
    of entries within the range of their fields, every entry of the
    result after the first differs from [(0, 0)]: consecutive retained
    entries differ in [from_] or in [to_]. *)
Theorem DeltaFormat_canonical_no_zero kEnableDChecks start highest_pc
    (this : SrcMap)
    (Hnonempty : this <> [])
    (Hcanonical : canonical this)
    (Hvalid : Forall SrcMapElem_valid this)
    (Hstart : Forall (fun e => from_ start <= from_ e) this) :
  exists first rest,
    DeltaFormat std_sort kEnableDChecks start highest_pc this
    = Done (first :: rest) /\
    Forall (fun d => d <> SrcMapElem_zero) rest.
Proof.
  destruct (DeltaFormat_unfold std_sort std_sort_ok kEnableDChecks start
              highest_pc this Hnonempty) as (Hrun & _ & _).
  destruct (SortByFrom_sorted std_sort std_sort_ok this) as [Hperm _].
  destruct (SortByFrom_least std_sort std_sort_ok this Hnonempty)
    as [Hin0 _].
  destruct (kept_entries highest_pc this Hnonempty) as (a & r & Hs & Hkept).
  assert (Hnd : NoDup (firstn (Nat.max 1 (count_below highest_pc this))
                              (SortByFrom std_sort this))).
  { apply NoDup_firstn. eapply Permutation_NoDup; [eassumption | ].
    apply (NoDup_map_inv SrcMapElem_int64). now apply canonical_NoDup_keys. }
  assert (Hv : Forall SrcMapElem_valid
                 (firstn (Nat.max 1 (count_below highest_pc this))
                         (SortByFrom std_sort this))).
  { apply Forall_firstn, (Permutation_Forall Hperm Hvalid). }
  rewrite Hkept in Hrun, Hnd, Hv.
  exists (SrcMapElem_sub a start),
         (differences a
            (firstn (Nat.max 1 (count_below highest_pc this) - 1) r)).
  split.
  - rewrite Hrun. unfold DCHECK.
    rewrite Forall_forall in Hstart. specialize (Hstart _ Hin0).
    destruct (Z.geb_spec (from_ (at_ (SortByFrom std_sort this) 0))
                         (from_ start)); [ | lia].
    now rewrite andb_false_r.
  - inversion Hv; subst. now apply differences_nonzero.
Qed.

End DeltaFormatFurther.

(** ** LinkerPatch *)

Lemma LinkerPatch_lex_negtrans (a b c : LinkerPatch) :
  ~ LinkerPatch_lex a b -> ~ LinkerPatch_lex b c -> ~ LinkerPatch_lex a c.
Proof.
  unfold LinkerPatch_lex.
  rewrite <- !LinkerPatchType_value_inj. lia.
Qed.

Lemma LinkerPatch_lt_false_iff (a b : LinkerPatch) :
  LinkerPatch_lt a b = false <-> ~ LinkerPatch_lex a b.
Proof.
  rewrite <- LinkerPatch_lt_iff. destruct (LinkerPatch_lt a b); split;
    congruence.
Qed.

(** The two operators of [LinkerPatch] agree: [==] is equality of the
    four fields and holds exactly when neither patch is below the other,
    and [<] is a strict weak ordering, so patches can be sorted and kept
    in ordered containers without two distinct patches being taken for
    one. *)
Theorem LinkerPatch_operators_consistent (a b : LinkerPatch) :
  (LinkerPatch_eq a b = true <-> a = b) /\
  LinkerPatch_eq a b = negb (LinkerPatch_lt a b) && negb (LinkerPatch_lt b a) /\
  strict_weak_order LinkerPatch_lt.
Proof.
  split; [apply LinkerPatch_eq_iff | split].
  - destruct (LinkerPatch_eq a b) eqn:E.
    + apply LinkerPatch_eq_iff in E. subst b.
      assert (LinkerPatch_lt a a = false) as ->; [ | reflexivity].
      apply LinkerPatch_lt_false_iff, LinkerPatch_lex_irrefl.
    + assert (Hne : a <> b).
      { intros Heq. apply LinkerPatch_eq_iff in Heq. congruence. }
      destruct (LinkerPatch_lex_total a b Hne) as [H | H];
        apply LinkerPatch_lt_iff in H; rewrite H; simpl;
        [reflexivity | now rewrite andb_false_r].
  - repeat split.
    + intros p. apply LinkerPatch_lt_false_iff, LinkerPatch_lex_irrefl.
    + intros p q r. rewrite !LinkerPatch_lt_iff.
      apply LinkerPatch_lex_trans.
    + intros p q r. rewrite !LinkerPatch_lt_false_iff.
      apply LinkerPatch_lex_negtrans.
Qed.

(** Every patch has exactly one valid family of accessors. With debug
    assertions on, [TargetMethod] stops at its assertion exactly on the
    patches of kind [kLinkerPatchType], and [TargetTypeDexFile] and
    [TargetTypeIndex] exactly on the others; without them the accessors
    return the stored fields on every patch. *)
Theorem LinkerPatch_accessor_partition (p : LinkerPatch) :
  (TargetMethod true p = DcheckFailed <-> Type_ p = kLinkerPatchType) /\
  (TargetTypeDexFile true p = DcheckFailed <-> Type_ p <> kLinkerPatchType) /\
  (TargetTypeIndex true p = DcheckFailed <-> Type_ p <> kLinkerPatchType) /\
  (Type_ p <> kLinkerPatchType ->
   TargetMethod true p
   = Done (mkMethodReference (target_dex_file_ p) (target_idx_ p))) /\
  (Type_ p = kLinkerPatchType ->
   TargetTypeDexFile true p = Done (target_dex_file_ p) /\
   TargetTypeIndex true p = Done (target_idx_ p)) /\
  TargetMethod false p
  = Done (mkMethodReference (target_dex_file_ p) (target_idx_ p)) /\
  TargetTypeDexFile false p = Done (target_dex_file_ p) /\
  TargetTypeIndex false p = Done (target_idx_ p).
Proof.
  destruct p as [o t i d]. unfold Type_. simpl.
  destruct t; cbv; repeat split; intros; congruence.
Qed.

(** * The further properties at concrete inputs *)

Lemma Arrange_same_entries_witness :
  NoDup (Arrange insertion_sort
           [mkSrcMapElem 30 1; mkSrcMapElem 20 2; mkSrcMapElem 20 2]).
Proof.
  refine (proj1 (proj2 (Arrange_same_entries insertion_sort
                          insertion_sort_contract
                          [mkSrcMapElem 30 1; mkSrcMapElem 20 2;
                           mkSrcMapElem 20 2] _))).
  repeat constructor; unfold is_uint32, is_int32; simpl; lia.
Defined.

Lemma Arrange_of_distinct_keys_witness :
  length (Arrange insertion_sort
            [mkSrcMapElem 30 1; mkSrcMapElem 20 2; mkSrcMapElem 10 2])
  = 3%nat.
Proof.
  refine (proj2 (Arrange_of_distinct_keys insertion_sort
                   insertion_sort_contract
                   [mkSrcMapElem 30 1; mkSrcMapElem 20 2; mkSrcMapElem 10 2]
                   _)).
  repeat constructor; simpl; intuition discriminate.
Defined.

Lemma FindByTo_first_of_line_witness :
  to_ (at_ [mkSrcMapElem 5 (-1); mkSrcMapElem 30 1; mkSrcMapElem 20 2;
            mkSrcMapElem 25 2; mkSrcMapElem 10 3]
           (FindByTo [mkSrcMapElem 5 (-1); mkSrcMapElem 30 1;
                      mkSrcMapElem 20 2; mkSrcMapElem 25 2;
                      mkSrcMapElem 10 3] 2)) = 2.
Proof.
  destruct (FindByTo_first_of_line
              [mkSrcMapElem 5 (-1); mkSrcMapElem 30 1; mkSrcMapElem 20 2;
               mkSrcMapElem 25 2; mkSrcMapElem 10 3] 2)
    as (_ & _ & Hfound).
  - repeat constructor; reflexivity.
  - repeat constructor; unfold is_uint32, is_int32; simpl; lia.
  - unfold is_int32; lia.
  - apply Hfound. exists (mkSrcMapElem 25 2). split; [ | reflexivity].
    simpl. tauto.
Defined.

Lemma Arrange_then_FindByTo_witness :
  (FindByTo (Arrange insertion_sort
               [mkSrcMapElem 30 1; mkSrcMapElem 20 2; mkSrcMapElem 20 2]) 2
   < size (Arrange insertion_sort
             [mkSrcMapElem 30 1; mkSrcMapElem 20 2; mkSrcMapElem 20 2]))%nat.
Proof.
  refine (proj1 (proj1 (Arrange_then_FindByTo insertion_sort
                          insertion_sort_contract
                          [mkSrcMapElem 30 1; mkSrcMapElem 20 2;
                           mkSrcMapElem 20 2] 2 _ _) _)).
  - repeat constructor; unfold is_uint32, is_int32; simpl; lia.
  - unfold is_int32; lia.
  - exists (mkSrcMapElem 20 2). split; [simpl; tauto | reflexivity].
Defined.

Lemma DeltaFormat_single_entry_witness :
  DeltaFormat insertion_sort true (mkSrcMapElem 5 0) 50 [mkSrcMapElem 90 3]
  = Done [mkSrcMapElem 85 3].
Proof.
  exact (DeltaFormat_single_entry insertion_sort insertion_sort_contract
           true (mkSrcMapElem 5 0) 50 (mkSrcMapElem 90 3)).
Defined.

Lemma DeltaFormat_nothing_dropped_witness :
  DeltaFormat insertion_sort true (mkSrcMapElem 0 0) 100
    [mkSrcMapElem 30 3; mkSrcMapElem 10 1; mkSrcMapElem 20 2]
  = Done [mkSrcMapElem 10 1; mkSrcMapElem 10 1; mkSrcMapElem 10 1].
Proof.
  refine (proj1 (DeltaFormat_nothing_dropped insertion_sort
                   insertion_sort_contract true (mkSrcMapElem 0 0) 100
                   [mkSrcMapElem 30 3; mkSrcMapElem 10 1; mkSrcMapElem 20 2]
                   _ _ _)).
  - discriminate.
  - repeat constructor; simpl; lia.
  - repeat constructor; simpl; lia.
Defined.

Lemma DeltaFormat_release_wraps_witness :
  exists deltas,
    DeltaFormat insertion_sort false (mkSrcMapElem 11 0) 50
      [mkSrcMapElem 20 2; mkSrcMapElem 10 1] = Done deltas /\
    from_ (at_ deltas 0) = 4294967295.
Proof.
  destruct (DeltaFormat_release_wraps insertion_sort insertion_sort_contract
              (mkSrcMapElem 11 0) 50 [mkSrcMapElem 20 2; mkSrcMapElem 10 1])
    as (deltas & Hrun & _ & Hwrap).
  - discriminate.
  - repeat constructor; unfold is_uint32, is_int32; simpl; lia.
  - unfold is_uint32; simpl; lia.
  - exists deltas. split; [exact Hrun | ].
    rewrite Hwrap; [reflexivity | simpl; lia].
Defined.

Lemma DeltaFormat_from_gaps_witness :
  exists deltas,
    DeltaFormat insertion_sort true (mkSrcMapElem 5 0) 50
      [mkSrcMapElem 90 3; mkSrcMapElem 20 2; mkSrcMapElem 10 1] = Done deltas /\
    map from_ deltas = [5; 10].
Proof.
  destruct (DeltaFormat_from_gaps insertion_sort insertion_sort_contract
              true (mkSrcMapElem 5 0) 50
              [mkSrcMapElem 90 3; mkSrcMapElem 20 2; mkSrcMapElem 10 1])
    as (deltas & Hrun & Hgaps & _).
  - discriminate.
  - repeat constructor; unfold is_uint32, is_int32; simpl; lia.
  - unfold is_uint32; simpl; lia.
  - repeat constructor; simpl; lia.
  - exists deltas. split; [exact Hrun | ]. rewrite Hgaps. reflexivity.
Defined.

Lemma DeltaFormat_order_independent_witness :
  DeltaFormat insertion_sort true (mkSrcMapElem 5 0) 50
    [mkSrcMapElem 90 3; mkSrcMapElem 20 2; mkSrcMapElem 10 1]
  = DeltaFormat insertion_sort true (mkSrcMapElem 5 0) 50
      [mkSrcMapElem 20 2; mkSrcMapElem 90 3; mkSrcMapElem 10 1].
Proof.
  refine (DeltaFormat_order_independent insertion_sort insertion_sort_contract
            insertion_sort insertion_sort_contract
            true (mkSrcMapElem 5 0) 50
            [mkSrcMapElem 90 3; mkSrcMapElem 20 2; mkSrcMapElem 10 1]
            [mkSrcMapElem 20 2; mkSrcMapElem 90 3; mkSrcMapElem 10 1] _ _).
  - apply perm_swap.
  - repeat constructor; simpl; intuition discriminate.
Defined.

Lemma DeltaFormat_canonical_no_zero_witness :
  exists first rest,
    DeltaFormat insertion_sort true (mkSrcMapElem 5 0) 50
      [mkSrcMapElem 10 1; mkSrcMapElem 10 2; mkSrcMapElem 20 2]
    = Done (first :: rest) /\
    Forall (fun d => d <> SrcMapElem_zero) rest.
Proof.
  refine (DeltaFormat_canonical_no_zero insertion_sort insertion_sort_contract
            true (mkSrcMapElem 5 0) 50
            [mkSrcMapElem 10 1; mkSrcMapElem 10 2; mkSrcMapElem 20 2]
            _ _ _ _).
  - discriminate.
  - repeat constructor; reflexivity.
  - repeat constructor; unfold is_uint32, is_int32; simpl; lia.
  - repeat constructor; simpl; lia.
Defined.
